(** * mdformat: resolution of [.mdformat.toml] configuration files

    A shallow embedding of [src/mdformat/_conf.py]: the upward search for the
    nearest [.mdformat.toml], the two validation passes over the parsed
    mapping, and the [functools.lru_cache] wrapper around [read_toml_opts].

    Conventions of the embedding:
    - Python values are the ones [tomllib] can produce ([PyValue]);
    - a [dict] is an association list in insertion order ([Dict]): the order
      decides which unrecognized key an error message names;
    - a raised exception is the [Raise] case of [Result];
    - an f-string is the list of its pieces ([Message]); [repr] and [str]
      of interpolated objects are kept symbolic, because the text of
      [str(set(...))] depends on the hash seed of the process;
    - the file system is a function from paths to the bytes of the regular
      file found there, if any;
    - the cache of [lru_cache] is threaded explicitly through every call.

    Outside the model: the recursion limit of the interpreter, the limits
    of the operating system on the length of a path, and the hit and miss
    counters of the cache. *)

From Stdlib Require Import List String ZArith Bool Arith Lia.
From Stdlib Require Import Floats.SpecFloat.
Import ListNotations.
Open Scope string_scope.

(* ================================================================== *)
(** * Python values *)

(** What [tomllib.load] can put in the mapping it returns: strings,
    integers, floats, booleans, date and time objects, arrays (lists) and
    tables (dicts). *)
#[warnings="-register-all"]
Inductive PyValue : Type :=
| PyStr (s : string)
| PyInt (n : Z)
| PyFloat (f : spec_float)
| PyBool (b : bool)
| PyDatetime (iso : string)
| PyList (items : list PyValue)
| PyDict (items : list (string * PyValue)).

(** A [dict] with string keys, in insertion order. *)
Definition Dict : Type := list (string * PyValue).

(** [key in d] *)
Fixpoint dict_contains (key : string) (d : Dict) : bool :=
  match d with
  | [] => false
  | (k, _) :: rest => if String.eqb key k then true else dict_contains key rest
  end.

(** [d[key]], [None] standing for [KeyError]. *)
Fixpoint dict_get (key : string) (d : Dict) : option PyValue :=
  match d with
  | [] => None
  | (k, v) :: rest => if String.eqb key k then Some v else dict_get key rest
  end.

(** [d[key] = v]: replaces the value in place, or appends a new entry. *)
Fixpoint dict_set (key : string) (v : PyValue) (d : Dict) : Dict :=
  match d with
  | [] => [(key, v)]
  | (k, w) :: rest =>
      if String.eqb key k then (k, v) :: rest else (k, w) :: dict_set key v rest
  end.

(** [list(d)]: the keys, in iteration order. *)
Definition dict_keys (d : Dict) : list string := map fst d.

(** [isinstance(v, int)]; [bool] is a subclass of [int]. *)
Definition isinstance_int (v : PyValue) : bool :=
  match v with
  | PyInt _ | PyBool _ => true
  | _ => false
  end.

(** [isinstance(v, bool)] *)
Definition isinstance_bool (v : PyValue) : bool :=
  match v with
  | PyBool _ => true
  | _ => false
  end.

(** The integer an [int] instance compares as ([True] is 1, [False] is 0). *)
Definition int_value (v : PyValue) : Z :=
  match v with
  | PyInt n => n
  | PyBool true => 1%Z
  | _ => 0%Z
  end.

(** [v == s] for a string [s]: only a string is equal to a string. *)
Definition eq_str (v : PyValue) (s : string) : bool :=
  match v with
  | PyStr t => String.eqb t s
  | _ => false
  end.

(** Lists and dicts have no [__hash__]. *)
Definition hashable (v : PyValue) : bool :=
  match v with
  | PyList _ | PyDict _ => false
  | _ => true
  end.

(** [type(v).__name__] *)
Definition type_name (v : PyValue) : string :=
  match v with
  | PyStr _ => "str"
  | PyInt _ => "int"
  | PyFloat _ => "float"
  | PyBool _ => "bool"
  | PyDatetime _ => "datetime"
  | PyList _ => "list"
  | PyDict _ => "dict"
  end.

(* ================================================================== *)
(** * Paths *)

(** A [pathlib] path of the POSIX flavour: its root (["/"] for an absolute
    path, [""] for a relative one) and the components after it. Nothing is
    normalised: [".."] is a component like any other. *)
Record Path : Type := mkPath { root : string; tail : list string }.

(** [p / name], for a single relative component [name]. *)
Definition truediv (p : Path) (name : string) : Path :=
  {| root := root p; tail := tail p ++ [name] |}.

(** [p.parent]: a path without components is its own parent. *)
Definition parent (p : Path) : Path :=
  match tail p with
  | [] => p
  | _ :: _ => {| root := root p; tail := removelast (tail p) |}
  end.

Fixpoint list_eqb (l1 l2 : list string) : bool :=
  match l1, l2 with
  | [], [] => true
  | a :: r1, b :: r2 => String.eqb a b && list_eqb r1 r2
  | _, _ => false
  end.

(** [p == q] *)
Definition path_eqb (p q : Path) : bool :=
  String.eqb (root p) (root q) && list_eqb (tail p) (tail q).

(** Number of components below the root. *)
Definition depth (p : Path) : nat := List.length (tail p).

(* ================================================================== *)
(** * Exceptions and results *)

(** The pieces of an f-string. *)
Inductive Fragment : Type :=
| Lit (s : string)               (* literal text *)
| ReprStr (s : string)           (* {s!r} *)
| StrPath (p : Path)             (* {p} for a path *)
| StrSet (elems : list string)   (* {set(...)} *)
| StrExc (e : string).           (* {e} for a caught exception *)

Definition Message : Type := list Fragment.

Inductive Exception : Type :=
| InvalidConfError (msg : Message)
| TypeError (msg : Message).

Inductive Result (A : Type) : Type :=
| Return (a : A)
| Raise (e : Exception).

Arguments Return {A} a.
Arguments Raise {A} e.

Definition bind {A B : Type} (m : Result A) (k : A -> Result B) : Result B :=
  match m with
  | Return a => k a
  | Raise e => Raise e
  end.

Notation "x <- m ;; k" := (bind m (fun x => k))
  (at level 61, m at next level, right associativity).
Notation "m ;;; k" := (bind m (fun _ => k))
  (at level 61, right associativity).

(** [v in {s1, s2, ...}] for a set of strings: the value is hashed first,
    which raises [TypeError] for a list or a dict. *)
Definition in_str_set (v : PyValue) (elems : list string) : Result bool :=
  if hashable v then Return (existsb (eq_str v) elems)
  else Raise (TypeError [Lit "unhashable type: "; ReprStr (type_name v)]).

(* ================================================================== *)
(** * The module [_conf] *)

Definition DEFAULT_OPTS : Dict :=
  [ ("wrap", PyStr "keep");
    ("number", PyBool false);
    ("end_of_line", PyStr "lf");
    ("primary_bullet_list_marker", PyStr "-");
    ("secondary_bullet_list_marker", PyStr "*");
    ("primary_ordered_list_marker", PyStr ".");
    ("secondary_ordered_list_marker", PyStr ")");
    ("thematic_break_character", PyStr "_");
    ("thematic_break_width", PyInt 70);
    ("escape_square_brackets", PyBool true);
    ("entity_substitution", PyBool true) ].

Definition invalid_value (key : string) (conf_path : Path) : Exception :=
  InvalidConfError [Lit ("Invalid '" ++ key ++ "' value in "); StrPath conf_path].

Definition _validate_values (opts : Dict) (conf_path : Path) : Result unit :=
  (match dict_get "wrap" opts with
   | Some wrap_value =>
       ok <- (if isinstance_int wrap_value && (int_value wrap_value >? 1)%Z
              then Return true
              else in_str_set wrap_value ["keep"; "no"]) ;;
       if negb ok then Raise (invalid_value "wrap" conf_path) else Return tt
   | None => Return tt
   end) ;;;
  (match dict_get "end_of_line" opts with
   | Some v =>
       found <- in_str_set v ["crlf"; "lf"; "keep"] ;;
       if negb found then Raise (invalid_value "end_of_line" conf_path)
       else Return tt
   | None => Return tt
   end) ;;;
  (match dict_get "number" opts with
   | Some v =>
       if negb (isinstance_bool v) then Raise (invalid_value "number" conf_path)
       else Return tt
   | None => Return tt
   end) ;;;
  (match dict_get "primary_bullet_list_marker" opts with
   | Some v =>
       found <- in_str_set v ["*"; "+"; "-"] ;;
       if negb found
       then Raise (invalid_value "primary_bullet_list_marker" conf_path)
       else Return tt
   | None => Return tt
   end) ;;;
  (match dict_get "secondary_bullet_list_marker" opts with
   | Some v =>
       found <- in_str_set v ["*"; "+"; "-"] ;;
       if negb found
       then Raise (invalid_value "secondary_bullet_list_marker" conf_path)
       else Return tt
   | None => Return tt
   end).

Definition invalid_key (key : string) (conf_path : Path) : Exception :=
  InvalidConfError
    [ Lit "Invalid key "; ReprStr key; Lit " in "; StrPath conf_path; Lit ".";
      Lit " Keys must be one of "; StrSet (dict_keys DEFAULT_OPTS); Lit "." ].

(** [for key in opts: if key not in DEFAULT_OPTS: raise ...] *)
Fixpoint _validate_keys (opts : Dict) (conf_path : Path) : Result unit :=
  match opts with
  | [] => Return tt
  | (key, _) :: rest =>
      if negb (dict_contains key DEFAULT_OPTS)
      then Raise (invalid_key key conf_path)
      else _validate_keys rest conf_path
  end.

(* ================================================================== *)
(** * The file system and the TOML parser *)

(** The content of a file opened in binary mode. *)
Definition bytes : Type := string.

(** The regular files of the file system, by path, with what reading them
    gives. Errors of the operating system (a file that cannot be opened)
    are outside the model: they are not handled by the code either. *)
Definition FileSystem : Type := Path -> option bytes.

(** [p.is_file()] *)
Definition is_file (fs : FileSystem) (p : Path) : bool :=
  match fs p with
  | Some _ => true
  | None => false
  end.

(** The outcome of [tomllib.load(f)]: a mapping, or the exception
    [tomllib.TOMLDecodeError] with its text, the one exception that the
    parser documents and that the code catches. *)
Inductive LoadResult : Type :=
| Loaded (toml_opts : Dict)
| TOMLDecodeError (e : string).

(** [mdformat._compat.tomllib]: the parser is used as a black box. *)
Class TomlLib : Type := { tomllib_load : bytes -> LoadResult }.

(** The name of the configuration file. *)
Definition CONF_NAME : string := ".mdformat.toml".

(** Lines 43 to 52 of [read_toml_opts]: the configuration file exists and
    holds [content]. *)
Definition load_conf `{TomlLib} (content : bytes) (conf_path : Path) : Result Dict :=
  toml_opts <- (match tomllib_load content with
                | Loaded toml_opts => Return toml_opts
                | TOMLDecodeError e =>
                    Raise (InvalidConfError [Lit "Invalid TOML syntax: "; StrExc e])
                end) ;;
  _validate_keys toml_opts conf_path ;;;
  _validate_values toml_opts conf_path ;;;
  Return toml_opts.

(* ================================================================== *)
(** * [functools.lru_cache] *)

(** [lru_cache()] is called without arguments: [maxsize] is 128. *)
Definition maxsize : nat := 128.

(** The cached results, most recently used first. Only results that were
    returned are stored: a call that raises leaves no entry. *)
Definition Cache : Type := list (Path * Dict).

Fixpoint cache_get (key : Path) (c : Cache) : option Dict :=
  match c with
  | [] => None
  | (k, v) :: rest => if path_eqb key k then Some v else cache_get key rest
  end.

Fixpoint cache_remove (key : Path) (c : Cache) : Cache :=
  match c with
  | [] => []
  | (k, v) :: rest =>
      if path_eqb key k then rest else (k, v) :: cache_remove key rest
  end.

(** A hit moves the entry to the most recently used position. *)
Definition cache_touch (key : Path) (v : Dict) (c : Cache) : Cache :=
  (key, v) :: cache_remove key c.

(** After the wrapped function has returned: nothing is stored when the key
    has appeared in the meantime; a full cache drops its oldest entry. *)
Definition cache_store (key : Path) (v : Dict) (c : Cache) : Cache :=
  match cache_get key c with
  | Some _ => c
  | None =>
      if (maxsize <=? List.length c)%nat then (key, v) :: removelast c
      else (key, v) :: c
  end.

(* ================================================================== *)
(** * [read_toml_opts] *)

(** The decorated function. [fuel] bounds the depth of the recursion;
    [None] means that the bound was reached. The recursive call goes
    through the wrapper again, as the name [read_toml_opts] in the body
    refers to the decorated function. *)
Fixpoint read_toml_opts_rec `{TomlLib} (fuel : nat) (fs : FileSystem)
    (conf_dir : Path) (cache : Cache) : option (Result Dict * Cache) :=
  match fuel with
  | O => None
  | S fuel' =>
      match cache_get conf_dir cache with
      | Some result => Some (Return result, cache_touch conf_dir result cache)
      | None =>
          let conf_path := truediv conf_dir CONF_NAME in
          let called :=
            match fs conf_path with
            | None =>
                let parent_dir := parent conf_dir in
                if path_eqb conf_dir parent_dir then Some (Return [], cache)
                else read_toml_opts_rec fuel' fs parent_dir cache
            | Some content => Some (load_conf content conf_path, cache)
            end in
          match called with
          | None => None
          | Some (Return result, cache') =>
              Some (Return result, cache_store conf_dir result cache')
          | Some (Raise e, cache') => Some (Raise e, cache')
          end
      end
  end.

(** One call of [read_toml_opts(conf_dir)] in a process whose cache is
    [cache]: the walk visits at most [depth conf_dir + 1] directories. *)
Definition read_toml_opts `{TomlLib} (fs : FileSystem) (conf_dir : Path)
    (cache : Cache) : option (Result Dict * Cache) :=
  read_toml_opts_rec (S (depth conf_dir)) fs conf_dir cache.

(* ================================================================== *)
(** * The vocabulary of the specification *)

(** The ancestor chain of a directory: itself, its parent, and so on up to
    the directory that is its own parent. *)
Fixpoint ancestors_from (n : nat) (d : Path) : list Path :=
  match n with
  | O => [d]
  | S n' => d :: ancestors_from n' (parent d)
  end.

Definition ancestors (d : Path) : list Path := ancestors_from (depth d) d.

(** The directory directly contains a configuration file. *)
Definition has_conf (fs : FileSystem) (d : Path) : bool :=
  is_file fs (truediv d CONF_NAME).

(** The nearest directory of the ancestor chain with a configuration file. *)
Definition nearest_conf_dir (fs : FileSystem) (d : Path) : option Path :=
  find (has_conf fs) (ancestors d).

(** What the walk yields on the file system as it is, without any cache:
    the validated content of the nearest configuration file, or an empty
    mapping when there is none. *)
Definition resolved `{TomlLib} (fs : FileSystem) (d : Path) : Result Dict :=
  match nearest_conf_dir fs d with
  | None => Return []
  | Some a =>
      match fs (truediv a CONF_NAME) with
      | Some content => load_conf content (truediv a CONF_NAME)
      | None => Return []
      end
  end.

(** Every cached mapping is what the walk yields on [fs]: the state of the
    cache of a process that started with an empty cache and has seen no
    other file system than [fs]. *)
Definition cache_coherent `{TomlLib} (fs : FileSystem) (c : Cache) : Prop :=
  forall k v, In (k, v) c -> resolved fs k = Return v.

(** The keys of the schema. *)
Definition recognized (key : string) : bool := dict_contains key DEFAULT_OPTS.

Definition only_recognized_keys (opts : Dict) : bool :=
  forallb (fun kv => recognized (fst kv)) opts.

(** The keys with an enforced rule, and those without. *)
Definition enforced_keys : list string :=
  [ "wrap"; "end_of_line"; "number";
    "primary_bullet_list_marker"; "secondary_bullet_list_marker" ].

Definition unenforced_keys : list string :=
  [ "primary_ordered_list_marker"; "secondary_ordered_list_marker";
    "thematic_break_character"; "thematic_break_width";
    "escape_square_brackets"; "entity_substitution" ].

(** The rules of the schema, as the specification words them. *)
Definition wrap_rule (v : PyValue) : bool :=
  match v with
  | PyInt n => (1 <? n)%Z
  | PyStr s => String.eqb s "keep" || String.eqb s "no"
  | _ => false
  end.

Definition end_of_line_rule (v : PyValue) : bool :=
  match v with
  | PyStr s => String.eqb s "crlf" || String.eqb s "lf" || String.eqb s "keep"
  | _ => false
  end.

Definition number_rule (v : PyValue) : bool :=
  match v with
  | PyBool _ => true
  | _ => false
  end.

Definition bullet_rule (v : PyValue) : bool :=
  match v with
  | PyStr s => String.eqb s "*" || String.eqb s "+" || String.eqb s "-"
  | _ => false
  end.

Definition rule_of (key : string) : option (PyValue -> bool) :=
  if String.eqb key "wrap" then Some wrap_rule
  else if String.eqb key "end_of_line" then Some end_of_line_rule
  else if String.eqb key "number" then Some number_rule
  else if String.eqb key "primary_bullet_list_marker" then Some bullet_rule
  else if String.eqb key "secondary_bullet_list_marker" then Some bullet_rule
  else None.

(** The value of a key conforms to the schema: it satisfies the rule of the
    key, if the key has one. *)
Definition conforms (key : string) (v : PyValue) : bool :=
  match rule_of key with
  | Some rule => rule v
  | None => true
  end.

Definition schema_conformant (opts : Dict) : bool :=
  forallb (fun kv => conforms (fst kv) (snd kv)) opts.

(** [number] is tested with [isinstance]; the other enforced keys with a
    membership test, which hashes the value. *)
Definition hashes (key : string) : bool := negb (String.eqb key "number").

(** What the check of one enforced key comes to, for a value [v] of the
    key: nothing happens when [v] satisfies the rule; otherwise the check
    raises [InvalidConfError], unless hashing [v] has raised before. *)
Definition check_value (key : string) (v : PyValue) (conf_path : Path) : Result unit :=
  match rule_of key with
  | None => Return tt
  | Some rule =>
      if rule v then Return tt
      else if hashes key && negb (hashable v)
           then Raise (TypeError [Lit "unhashable type: "; ReprStr (type_name v)])
           else Raise (invalid_value key conf_path)
  end.

Definition check_key (key : string) (opts : Dict) (conf_path : Path) : Result unit :=
  match dict_get key opts with
  | Some v => check_value key v conf_path
  | None => Return tt
  end.

(** The three causes of [InvalidConfError]. *)
Inductive Cause : Type :=
| MalformedSyntax
| UnrecognizedKey
| InvalidValue.

Definition cause_of (e : Exception) : option Cause :=
  match e with
  | InvalidConfError [Lit "Invalid TOML syntax: "; StrExc _] => Some MalformedSyntax
  | InvalidConfError (Lit "Invalid key " :: ReprStr _ :: _) => Some UnrecognizedKey
  | InvalidConfError [Lit text; StrPath _] =>
      if String.prefix "Invalid '" text then Some InvalidValue else None
  | _ => None
  end.

(* ================================================================== *)
(** * Sample data *)

Definition dir_root : Path := mkPath "/" [].
Definition dir_a : Path := mkPath "/" ["a"].
Definition dir_a_b : Path := mkPath "/" ["a"; "b"].
Definition dir_a_b_c : Path := mkPath "/" ["a"; "b"; "c"].

(** A stand-in for the parser on the handful of files used below; on each
    of them it returns what a TOML parser returns. *)
Definition sample_load (content : bytes) : LoadResult :=
  if String.eqb content "wrap = 2" then Loaded [("wrap", PyInt 2)]
  else if String.eqb content "wrap = 40" then Loaded [("wrap", PyInt 40)]
  else if String.eqb content "wrap = [80]" then Loaded [("wrap", PyList [PyInt 80])]
  else if String.eqb content "end_of_line = ['lf']"
       then Loaded [("end_of_line", PyList [PyStr "lf"])]
  else if String.eqb content "color = 1" then Loaded [("color", PyInt 1)]
  else if String.eqb content "" then Loaded []
  else TOMLDecodeError "Invalid statement (at line 1, column 1)".

Definition sample_tomllib : TomlLib := {| tomllib_load := sample_load |}.

(** A file system with one file, [conf_dir/.mdformat.toml]. *)
Definition one_conf (conf_dir : Path) (content : bytes) : FileSystem :=
  fun p => if path_eqb p (truediv conf_dir CONF_NAME) then Some content else None.

(** The empty file system. *)
Definition no_files : FileSystem := fun _ => None.

(** A parser that returns the same outcome for every file. *)
Definition const_tomllib (outcome : LoadResult) : TomlLib :=
  {| tomllib_load := fun _ => outcome |}.

(* ================================================================== *)
(** * Invariants and sessions *)

(** A mapping that has passed both validations: its keys are keys of
    [DEFAULT_OPTS], and the value of every enforced key it holds satisfies
    the rule of the key. *)
Definition valid_mapping (m : Dict) : Prop :=
  only_recognized_keys m = true
  /\ forall key v, In key enforced_keys -> dict_get key m = Some v ->
                   conforms key v = true.

(** Every cached mapping has passed both validations. *)
Definition cache_valid (c : Cache) : Prop :=
  forall k v, In (k, v) c -> valid_mapping v.

(** The shape of the cache: no directory twice, and no more entries than
    [maxsize]. *)
Definition cache_wf (c : Cache) : Prop :=
  NoDup (map fst c) /\ List.length c <= maxsize.

(** A session: the calls [read_toml_opts(d)] for the directories of
    [dirs], one after the other in the same process, and their results. *)
Fixpoint call_all `{TomlLib} (fs : FileSystem) (dirs : list Path) (cache : Cache)
  : list (Result Dict) * Cache :=
  match dirs with
  | [] => ([], cache)
  | d :: rest =>
      match read_toml_opts fs d cache with
      | Some (r, cache') =>
          let (rs, cache'') := call_all fs rest cache' in (r :: rs, cache'')
      | None => ([], cache)
      end
  end.

(* ================================================================== *)
(** * Paths: equality, parents and ancestor chains *)

Lemma list_eqb_eq (l1 l2 : list string) : list_eqb l1 l2 = true <-> l1 = l2.
Proof.
  revert l2. induction l1 as [|a r1 IH]; intros [|b r2]; simpl;
    try (split; [discriminate | discriminate]); try tauto.
  rewrite andb_true_iff, String.eqb_eq, IH.
  split; [intros [-> ->]; reflexivity | intros E; inversion E; auto].
Qed.

Lemma path_eqb_eq (p q : Path) : path_eqb p q = true <-> p = q.
Proof.
  unfold path_eqb. rewrite andb_true_iff, String.eqb_eq, list_eqb_eq.
  destruct p as [rp tp], q as [rq tq]; simpl.
  split; [intros [-> ->]; reflexivity | intros E; inversion E; auto].
Qed.

Lemma path_eqb_refl (p : Path) : path_eqb p p = true.
Proof. apply path_eqb_eq. reflexivity. Qed.

Lemma path_eqb_neq (p q : Path) : path_eqb p q = false <-> p <> q.
Proof.
  rewrite <- path_eqb_eq. destruct (path_eqb p q); split; congruence.
Qed.

Lemma length_removelast (A : Type) (l : list A) :
  List.length (removelast l) = pred (List.length l).
Proof.
  induction l as [|a [|b r] IH]; simpl in *; auto.
Qed.

Lemma depth_parent (d : Path) : depth (parent d) = pred (depth d).
Proof.
  unfold parent, depth. destruct (tail d) as [|a r] eqn:E.
  - rewrite E. reflexivity.
  - cbn [tail]. apply length_removelast.
Qed.

(** A directory is its own parent exactly when it has no component. *)
Lemma parent_self_iff (d : Path) : parent d = d <-> depth d = 0.
Proof.
  split.
  - intros E. pose proof (depth_parent d) as D. rewrite E in D.
    destruct (depth d); [reflexivity | simpl in D; lia].
  - unfold depth, parent. destruct (tail d); [reflexivity | discriminate].
Qed.

Lemma parent_root (d : Path) : root (parent d) = root d.
Proof. unfold parent. destruct (tail d); reflexivity. Qed.

Lemma ancestors_top (d : Path) : depth d = 0 -> ancestors d = [d].
Proof. unfold ancestors. intros ->. reflexivity. Qed.

Lemma ancestors_step (d : Path) :
  depth d <> 0 -> ancestors d = d :: ancestors (parent d).
Proof.
  unfold ancestors. intros Hd. rewrite depth_parent.
  destruct (depth d) as [|n]; [congruence | reflexivity].
Qed.

(** The chain as the walk of the code produces it: the directory, then the
    chain of its parent unless the directory equals its parent. *)
Lemma ancestors_unfold (d : Path) :
  ancestors d =
  d :: (if path_eqb d (parent d) then [] else ancestors (parent d)).
Proof.
  destruct (path_eqb d (parent d)) eqn:E.
  - apply path_eqb_eq in E. symmetry in E. apply parent_self_iff in E.
    apply ancestors_top; assumption.
  - apply ancestors_step. intros D. apply parent_self_iff in D.
    apply path_eqb_neq in E. congruence.
Qed.

Lemma ancestors_depth (d a : Path) :
  In a (ancestors d) -> depth a <= depth d.
Proof.
  unfold ancestors. remember (depth d) as n eqn:Hn.
  revert d Hn. induction n as [|n IH]; intros d Hn; simpl.
  - intros [<- | []]. lia.
  - intros [<- | Hin]; [lia |].
    assert (Hp : n = depth (parent d)) by (rewrite depth_parent; lia).
    specialize (IH (parent d) Hp Hin). lia.
Qed.

Lemma differs_from_parent (d : Path) :
  path_eqb d (parent d) = false -> depth d <> 0.
Proof.
  intros P D. apply parent_self_iff in D. apply path_eqb_neq in P. congruence.
Qed.

(** A directory is not in the ancestor chain of its parent. *)
Lemma not_in_ancestors_parent (d : Path) :
  depth d <> 0 -> ~ In d (ancestors (parent d)).
Proof.
  intros Hd Hin. apply ancestors_depth in Hin.
  rewrite depth_parent in Hin. lia.
Qed.

(* ================================================================== *)
(** * The walk without a cache *)

Section Walk.
Context `{TomlLib}.
Variable fs : FileSystem.

Lemma resolved_here (d : Path) (content : bytes) :
  fs (truediv d CONF_NAME) = Some content ->
  resolved fs d = load_conf content (truediv d CONF_NAME).
Proof.
  intros E. unfold resolved, nearest_conf_dir.
  rewrite ancestors_unfold. cbn [find].
  unfold has_conf at 1, is_file. rewrite E. rewrite E. reflexivity.
Qed.

Lemma resolved_top (d : Path) :
  fs (truediv d CONF_NAME) = None ->
  path_eqb d (parent d) = true ->
  resolved fs d = Return [].
Proof.
  intros E P. unfold resolved, nearest_conf_dir.
  rewrite ancestors_unfold, P. cbn [find].
  unfold has_conf, is_file. rewrite E. reflexivity.
Qed.

Lemma resolved_up (d : Path) :
  fs (truediv d CONF_NAME) = None ->
  path_eqb d (parent d) = false ->
  resolved fs d = resolved fs (parent d).
Proof.
  intros E P. unfold resolved at 1, nearest_conf_dir.
  rewrite ancestors_unfold, P. cbn [find].
  unfold has_conf at 1, is_file. rewrite E. reflexivity.
Qed.

(** Without a configuration file between a directory and one of its
    ancestors, both resolve alike. *)
Lemma resolved_nearest (d a : Path) :
  nearest_conf_dir fs d = Some a -> resolved fs d = resolved fs a.
Proof.
  unfold nearest_conf_dir, ancestors.
  remember (depth d) as n eqn:Hn. revert d Hn.
  induction n as [|n IH]; intros d Hn; simpl.
  - destruct (has_conf fs d); [intros [= ->]; reflexivity | discriminate].
  - destruct (has_conf fs d) eqn:Hc; [intros [= ->]; reflexivity |].
    intros Hf.
    assert (Hp : n = depth (parent d)) by (rewrite depth_parent; lia).
    rewrite <- (IH (parent d) Hp Hf).
    apply resolved_up.
    + unfold has_conf, is_file in Hc.
      destruct (fs (truediv d CONF_NAME)); [discriminate | reflexivity].
    + apply path_eqb_neq. intros E. symmetry in E.
      apply parent_self_iff in E. lia.
Qed.

Lemma nearest_conf_dir_has_conf (d a : Path) :
  nearest_conf_dir fs d = Some a -> has_conf fs a = true.
Proof. intros E. apply find_some in E. tauto. Qed.

End Walk.

(* ================================================================== *)
(** * The cache *)

Lemma cache_get_In (k : Path) (v : Dict) (c : Cache) :
  cache_get k c = Some v -> In (k, v) c.
Proof.
  induction c as [|[k' v'] rest IH]; simpl; [discriminate |].
  destruct (path_eqb k k') eqn:E.
  - apply path_eqb_eq in E. intros [= ->]. left. congruence.
  - intros G. right. auto.
Qed.

Lemma cache_get_None (k : Path) (c : Cache) :
  cache_get k c = None <-> ~ In k (map fst c).
Proof.
  induction c as [|[k' v'] rest IH]; simpl; [tauto |].
  destruct (path_eqb k k') eqn:E.
  - apply path_eqb_eq in E. split; [discriminate | intros N; exfalso; auto].
  - apply path_eqb_neq in E. rewrite IH. split; [intros N [G | G] | intros N G]; auto.
Qed.

Lemma In_cache_remove (e : Path * Dict) (k : Path) (c : Cache) :
  In e (cache_remove k c) -> In e c.
Proof.
  induction c as [|[k' v'] rest IH]; simpl; [tauto |].
  destruct (path_eqb k k'); simpl; intuition.
Qed.

Lemma In_removelast (A : Type) (x : A) (l : list A) :
  In x (removelast l) -> In x l.
Proof.
  induction l as [|a [|b r] IH]; simpl in *; intuition.
Qed.

Lemma In_cache_touch (e : Path * Dict) (k : Path) (v : Dict) (c : Cache) :
  cache_get k c = Some v -> In e (cache_touch k v c) -> In e c.
Proof.
  intros G [<- | Hin]; [apply cache_get_In; assumption |].
  eapply In_cache_remove; eassumption.
Qed.

Lemma In_cache_store (e : Path * Dict) (k : Path) (v : Dict) (c : Cache) :
  In e (cache_store k v c) -> e = (k, v) \/ In e c.
Proof.
  unfold cache_store. destruct (cache_get k c); [auto |].
  destruct (maxsize <=? List.length c)%nat; intros [<- | Hin]; auto.
  right. apply In_removelast. assumption.
Qed.

Lemma cache_get_touch (k : Path) (v : Dict) (c : Cache) :
  cache_get k (cache_touch k v c) = Some v.
Proof. unfold cache_touch. simpl. rewrite path_eqb_refl. reflexivity. Qed.

(** A result stored under a key that the cache does not hold yet is found
    again, whether or not an older entry had to make room for it. *)
Lemma cache_get_store (k : Path) (v : Dict) (c : Cache) :
  cache_get k c = None -> cache_get k (cache_store k v c) = Some v.
Proof.
  intros G. unfold cache_store. rewrite G.
  destruct (maxsize <=? List.length c)%nat; simpl; rewrite path_eqb_refl;
    reflexivity.
Qed.

(* ================================================================== *)
(** * The cached function against the walk *)

Section Cached.
Context `{TomlLib}.

(** One step of the recursion. *)
Lemma read_toml_opts_rec_S (fuel : nat) (fs : FileSystem) (d : Path) (c : Cache) :
  read_toml_opts_rec (S fuel) fs d c =
  match cache_get d c with
  | Some result => Some (Return result, cache_touch d result c)
  | None =>
      match
        match fs (truediv d CONF_NAME) with
        | None =>
            if path_eqb d (parent d) then Some (Return [], c)
            else read_toml_opts_rec fuel fs (parent d) c
        | Some content => Some (load_conf content (truediv d CONF_NAME), c)
        end
      with
      | None => None
      | Some (Return result, c') => Some (Return result, cache_store d result c')
      | Some (Raise e, c') => Some (Raise e, c')
      end
  end.
Proof. reflexivity. Qed.

Lemma coherent_nil (fs : FileSystem) : cache_coherent fs [].
Proof. intros k v []. Qed.

Lemma coherent_touch (fs : FileSystem) (k : Path) (v : Dict) (c : Cache) :
  cache_coherent fs c -> cache_get k c = Some v ->
  cache_coherent fs (cache_touch k v c).
Proof.
  intros Hc G k' v' Hin. apply Hc. eapply In_cache_touch; eassumption.
Qed.

Lemma coherent_store (fs : FileSystem) (k : Path) (v : Dict) (c : Cache) :
  cache_coherent fs c -> resolved fs k = Return v ->
  cache_coherent fs (cache_store k v c).
Proof.
  intros Hc R k' v' Hin. apply In_cache_store in Hin.
  destruct Hin as [[= -> ->] | Hin]; [assumption | apply Hc; assumption].
Qed.

(** With a coherent cache and enough fuel, a call returns what the walk
    yields, and leaves the cache coherent. *)
Lemma read_toml_opts_rec_resolved (fs : FileSystem) (fuel : nat) :
  forall (d : Path) (c : Cache),
    depth d < fuel -> cache_coherent fs c ->
    exists c', read_toml_opts_rec fuel fs d c = Some (resolved fs d, c')
               /\ cache_coherent fs c'.
Proof.
  induction fuel as [|fuel IH]; intros d c Hd Hc; [lia |].
  cbn [read_toml_opts_rec].
  destruct (cache_get d c) as [v|] eqn:G.
  - exists (cache_touch d v c). split.
    + rewrite (Hc d v (cache_get_In _ _ _ G)). reflexivity.
    + apply coherent_touch; assumption.
  - destruct (fs (truediv d CONF_NAME)) as [content|] eqn:F.
    + rewrite (resolved_here fs d content F).
      destruct (load_conf content (truediv d CONF_NAME)) as [v|e] eqn:L.
      * exists (cache_store d v c). split; [reflexivity |].
        apply coherent_store; [assumption |].
        rewrite (resolved_here fs d content F). assumption.
      * exists c. split; [reflexivity | assumption].
    + destruct (path_eqb d (parent d)) eqn:P.
      * rewrite (resolved_top fs d F P).
        exists (cache_store d [] c). split; [reflexivity |].
        apply coherent_store; [assumption |]. apply resolved_top; assumption.
      * rewrite (resolved_up fs d F P).
        pose proof (differs_from_parent d P) as D0.
        assert (Hp : depth (parent d) < fuel) by (rewrite depth_parent; lia).
        destruct (IH (parent d) c Hp Hc) as [c1 [E Hc1]]. rewrite E.
        destruct (resolved fs (parent d)) as [v|e] eqn:R.
        -- exists (cache_store d v c1). split; [reflexivity |].
           apply coherent_store; [assumption |].
           rewrite (resolved_up fs d F P). assumption.
        -- exists c1. split; [reflexivity | assumption].
Qed.

Lemma read_toml_opts_resolved (fs : FileSystem) (d : Path) (c : Cache) :
  cache_coherent fs c ->
  exists c', read_toml_opts fs d c = Some (resolved fs d, c')
             /\ cache_coherent fs c'.
Proof.
  intros Hc. apply read_toml_opts_rec_resolved; [lia | assumption].
Qed.

(** With enough fuel a call always comes back, whatever the cache holds. *)
Lemma read_toml_opts_rec_total (fs : FileSystem) (fuel : nat) :
  forall (d : Path) (c : Cache),
    depth d < fuel ->
    exists r c', read_toml_opts_rec fuel fs d c = Some (r, c').
Proof.
  induction fuel as [|fuel IH]; intros d c Hd; [lia |].
  cbn [read_toml_opts_rec].
  destruct (cache_get d c) as [v|]; [eauto |].
  destruct (fs (truediv d CONF_NAME)) as [content|].
  - destruct (load_conf content (truediv d CONF_NAME)); eauto.
  - destruct (path_eqb d (parent d)) eqn:P; [eauto |].
    pose proof (differs_from_parent d P) as D0.
    assert (Hp : depth (parent d) < fuel) by (rewrite depth_parent; lia).
    destruct (IH (parent d) c Hp) as [r [c1 E]]. rewrite E.
    destruct r; eauto.
Qed.

(** More fuel does not change the outcome of a call that came back. *)
Lemma read_toml_opts_rec_more_fuel (fs : FileSystem) (fuel : nat) :
  forall (d : Path) (c : Cache) (out : Result Dict * Cache),
    read_toml_opts_rec fuel fs d c = Some out ->
    read_toml_opts_rec (S fuel) fs d c = Some out.
Proof.
  induction fuel as [|fuel IH]; intros d c out; [discriminate |].
  intros E. rewrite read_toml_opts_rec_S in E.
  rewrite read_toml_opts_rec_S.
  destruct (cache_get d c) as [v|]; [assumption |].
  destruct (fs (truediv d CONF_NAME)) as [content|]; [assumption |].
  destruct (path_eqb d (parent d)); [assumption |].
  destruct (read_toml_opts_rec fuel fs (parent d) c) as [out1|] eqn:E1;
    [| discriminate].
  rewrite (IH _ _ _ E1). assumption.
Qed.

(** The keys a call adds to the cache are directories of the ancestor
    chain of its argument. *)
Lemma read_toml_opts_rec_keys (fs : FileSystem) (fuel : nat) :
  forall (d : Path) (c c' : Cache) (r : Result Dict),
    read_toml_opts_rec fuel fs d c = Some (r, c') ->
    forall k, In k (map fst c') -> In k (map fst c) \/ In k (ancestors d).
Proof.
  induction fuel as [|fuel IH]; intros d c c' r; [discriminate |].
  cbn [read_toml_opts_rec].
  assert (Hst : forall v c1 k,
    (forall k, In k (map fst c1) -> In k (map fst c) \/ In k (ancestors (parent d))
               \/ k = d) ->
    In k (map fst (cache_store d v c1)) -> In k (map fst c) \/ In k (ancestors d)).
  { intros v c1 k Hsub Hin. apply in_map_iff in Hin.
    destruct Hin as [[k1 v1] [<- Hin]]. simpl.
    rewrite (ancestors_unfold d).
    apply In_cache_store in Hin. destruct Hin as [[= -> ->] | Hin].
    - right. left. reflexivity.
    - destruct (Hsub k1) as [A | [A | A]].
      + apply in_map_iff. exists (k1, v1). auto.
      + left. assumption.
      + right. destruct (path_eqb d (parent d)) eqn:P.
        * apply path_eqb_eq in P. rewrite <- P in A.
          rewrite ancestors_unfold in A.
          rewrite <- P, path_eqb_refl in A. destruct A as [A | []].
          left. assumption.
        * right. assumption.
      + right. left. auto. }
  destruct (cache_get d c) as [v|] eqn:G.
  - intros [= <- <-] k Hin. left.
    apply in_map_iff in Hin. destruct Hin as [[k1 v1] [<- Hin]].
    apply in_map_iff. exists (k1, v1). split; [reflexivity |].
    eapply In_cache_touch; eassumption.
  - destruct (fs (truediv d CONF_NAME)) as [content|].
    + destruct (load_conf content (truediv d CONF_NAME)) as [v|e].
      * intros [= <- <-] k. apply Hst. auto.
      * intros [= <- <-] k. auto.
    + destruct (path_eqb d (parent d)) eqn:P.
      * intros [= <- <-] k. apply Hst. auto.
      * destruct (read_toml_opts_rec fuel fs (parent d) c) as [[r1 c1]|] eqn:E1;
          [| discriminate].
        pose proof (IH _ _ _ _ E1) as Hk.
        destruct r1 as [v|e]; intros [= <- <-] k.
        -- apply Hst. intros k0 Hin. destruct (Hk k0 Hin); auto.
        -- intros Hin. destruct (Hk k Hin) as [A | A]; [auto |].
           right. rewrite ancestors_unfold, P. right. assumption.
Qed.

(** A call that returns a mapping leaves it in the cache under its
    argument. *)
Lemma read_toml_opts_rec_cached (fs : FileSystem) (fuel : nat)
    (d : Path) (c c' : Cache) (m : Dict) :
  read_toml_opts_rec fuel fs d c = Some (Return m, c') ->
  cache_get d c' = Some m.
Proof.
  destruct fuel as [|fuel]; [discriminate |].
  cbn [read_toml_opts_rec].
  destruct (cache_get d c) as [v|] eqn:G.
  - intros [= <- <-]. apply cache_get_touch.
  - destruct (fs (truediv d CONF_NAME)) as [content|].
    + destruct (load_conf content (truediv d CONF_NAME)) as [v|e];
        intros [= <- <-]. apply cache_get_store. assumption.
    + destruct (path_eqb d (parent d)) eqn:P.
      * intros [= <- <-]. apply cache_get_store. assumption.
      * destruct (read_toml_opts_rec fuel fs (parent d) c) as [[r1 c1]|] eqn:E1;
          [| discriminate].
        destruct r1 as [v|e]; intros [= <- <-].
        apply cache_get_store. apply cache_get_None. intros Hin.
        destruct (read_toml_opts_rec_keys _ _ _ _ _ _ E1 d Hin) as [A | A].
        -- apply cache_get_None in G. contradiction.
        -- apply not_in_ancestors_parent in A; [assumption |].
           apply differs_from_parent. assumption.
Qed.

End Cached.

(* ================================================================== *)
(** * Validation of the values *)

Lemma wrap_check (v : PyValue) (p : Path) :
  (ok <- (if isinstance_int v && (int_value v >? 1)%Z then Return true
          else in_str_set v ["keep"; "no"]) ;;
   if negb ok then Raise (invalid_value "wrap" p) else Return tt)
  = check_value "wrap" v p.
Proof.
  destruct v as [s|n|f|b|iso|items|items]; try reflexivity.
  - unfold check_value, in_str_set; simpl.
    destruct (String.eqb s "keep"); [reflexivity |].
    destruct (String.eqb s "no"); reflexivity.
  - unfold check_value, in_str_set; simpl. rewrite Z.gtb_ltb.
    destruct (1 <? n)%Z; reflexivity.
  - destruct b; reflexivity.
Qed.

Lemma end_of_line_check (v : PyValue) (p : Path) :
  (found <- in_str_set v ["crlf"; "lf"; "keep"] ;;
   if negb found then Raise (invalid_value "end_of_line" p) else Return tt)
  = check_value "end_of_line" v p.
Proof.
  destruct v as [s|n|f|b|iso|items|items]; try reflexivity.
  unfold check_value, in_str_set; simpl.
  destruct (String.eqb s "crlf"); [reflexivity |].
  destruct (String.eqb s "lf"); [reflexivity |].
  destruct (String.eqb s "keep"); reflexivity.
Qed.

Lemma number_check (v : PyValue) (p : Path) :
  (if negb (isinstance_bool v) then Raise (invalid_value "number" p)
   else Return tt)
  = check_value "number" v p.
Proof. destruct v; reflexivity. Qed.

Lemma bullet_check (key : string) (v : PyValue) (p : Path) :
  rule_of key = Some bullet_rule -> hashes key = true ->
  (found <- in_str_set v ["*"; "+"; "-"] ;;
   if negb found then Raise (invalid_value key p) else Return tt)
  = check_value key v p.
Proof.
  intros R Hh. unfold check_value. rewrite R, Hh.
  destruct v as [s|n|f|b|iso|items|items]; try reflexivity.
  unfold in_str_set; simpl.
  destruct (String.eqb s "*"); [reflexivity |].
  destruct (String.eqb s "+"); [reflexivity |].
  destruct (String.eqb s "-"); reflexivity.
Qed.

(** [_validate_values] is the sequence of the five checks, in the order
    of the source. *)
Lemma validate_values_checks (opts : Dict) (p : Path) :
  _validate_values opts p =
  (check_key "wrap" opts p ;;;
   check_key "end_of_line" opts p ;;;
   check_key "number" opts p ;;;
   check_key "primary_bullet_list_marker" opts p ;;;
   check_key "secondary_bullet_list_marker" opts p).
Proof.
  unfold _validate_values, check_key.
  destruct (dict_get "wrap" opts); [rewrite wrap_check |];
  (destruct (dict_get "end_of_line" opts); [rewrite end_of_line_check |]);
  (destruct (dict_get "number" opts); [rewrite number_check |]);
  (destruct (dict_get "primary_bullet_list_marker" opts);
   [rewrite (bullet_check "primary_bullet_list_marker") by reflexivity |]);
  (destruct (dict_get "secondary_bullet_list_marker" opts);
   [rewrite (bullet_check "secondary_bullet_list_marker") by reflexivity |]);
  reflexivity.
Qed.

Lemma bind_unit_ok (a b : Result unit) :
  (a ;;; b) = Return tt <-> a = Return tt /\ b = Return tt.
Proof.
  destruct a as [[]|e]; simpl; [tauto |].
  split; [discriminate | intros [E _]; discriminate].
Qed.

Lemma dict_get_In (key : string) (v : PyValue) (d : Dict) :
  dict_get key d = Some v -> In (key, v) d.
Proof.
  induction d as [|[k w] rest IH]; simpl; [discriminate |].
  destruct (String.eqb key k) eqn:E.
  - apply String.eqb_eq in E. intros [= ->]. left. congruence.
  - auto.
Qed.

Lemma dict_contains_get (key : string) (d : Dict) :
  dict_contains key d = true <-> exists v, dict_get key d = Some v.
Proof.
  induction d as [|[k w] rest IH]; simpl.
  - split; [discriminate | intros [v E]; discriminate].
  - destruct (String.eqb key k); [split; eauto | assumption].
Qed.

(** The check of a key passes exactly on the values that conform. *)
Lemma check_value_ok (key : string) (v : PyValue) (p : Path) :
  check_value key v p = Return tt <-> conforms key v = true.
Proof.
  unfold check_value, conforms. destruct (rule_of key) as [rule|]; [| tauto].
  destruct (rule v); [tauto |].
  destruct (hashes key && negb (hashable v)); split; discriminate.
Qed.

Lemma check_key_ok (key : string) (opts : Dict) (p : Path) :
  check_key key opts p = Return tt <->
  (forall v, dict_get key opts = Some v -> conforms key v = true).
Proof.
  unfold check_key. destruct (dict_get key opts) as [v|].
  - rewrite check_value_ok. split; [intros C w [= <-]; assumption | auto].
  - split; [discriminate | reflexivity].
Qed.

(** Value validation passes exactly when the value of every enforced key
    that is present satisfies its rule. *)
Lemma validate_values_ok (opts : Dict) (p : Path) :
  _validate_values opts p = Return tt <->
  (forall key v, In key enforced_keys -> dict_get key opts = Some v ->
                 conforms key v = true).
Proof.
  rewrite validate_values_checks. rewrite !bind_unit_ok, !check_key_ok.
  split.
  - intros (W & E & N & P1 & P2) key v Hin.
    simpl in Hin.
    destruct Hin as [<- | [<- | [<- | [<- | [<- | []]]]]]; auto.
  - intros Hall. repeat split; intros v G; eapply Hall; try eassumption;
      simpl; tauto.
Qed.

Lemma rule_of_enforced (key : string) :
  In key enforced_keys <-> rule_of key <> None.
Proof.
  unfold rule_of, enforced_keys. simpl. split.
  - intros [<- | [<- | [<- | [<- | [<- | []]]]]]; discriminate.
  - destruct (String.eqb key "wrap") eqn:E1;
      [apply String.eqb_eq in E1; auto |].
    destruct (String.eqb key "end_of_line") eqn:E2;
      [apply String.eqb_eq in E2; auto |].
    destruct (String.eqb key "number") eqn:E3;
      [apply String.eqb_eq in E3; auto |].
    destruct (String.eqb key "primary_bullet_list_marker") eqn:E4;
      [apply String.eqb_eq in E4; auto 6 |].
    destruct (String.eqb key "secondary_bullet_list_marker") eqn:E5;
      [apply String.eqb_eq in E5; auto 6 |].
    congruence.
Qed.

Lemma schema_conformant_validates (opts : Dict) (p : Path) :
  schema_conformant opts = true -> _validate_values opts p = Return tt.
Proof.
  intros S. apply validate_values_ok. intros key v _ G.
  unfold schema_conformant in S. rewrite forallb_forall in S.
  apply (S (key, v)). apply dict_get_In. assumption.
Qed.


(* ================================================================== *)
(** * Validation of the keys *)

Lemma validate_keys_cons (k : string) (v : PyValue) (rest : Dict) (p : Path) :
  _validate_keys ((k, v) :: rest) p =
  if negb (recognized k) then Raise (invalid_key k p) else _validate_keys rest p.
Proof. reflexivity. Qed.

Lemma only_recognized_keys_cons (k : string) (v : PyValue) (rest : Dict) :
  only_recognized_keys ((k, v) :: rest) = recognized k && only_recognized_keys rest.
Proof. reflexivity. Qed.

Lemma validate_keys_ok (opts : Dict) (p : Path) :
  _validate_keys opts p = Return tt <-> only_recognized_keys opts = true.
Proof.
  induction opts as [|[k v] rest IH]; [simpl; tauto |].
  rewrite validate_keys_cons, only_recognized_keys_cons.
  destruct (recognized k); simpl; [assumption |].
  split; discriminate.
Qed.

(** Key validation either passes or raises for the first key, in iteration
    order, that is not a key of [DEFAULT_OPTS]. *)
Lemma validate_keys_outcome (opts : Dict) (p : Path) :
  (_validate_keys opts p = Return tt /\ only_recognized_keys opts = true)
  \/ exists before key v after,
       opts = (before ++ (key, v) :: after)%list /\
       only_recognized_keys before = true /\
       recognized key = false /\
       _validate_keys opts p = Raise (invalid_key key p).
Proof.
  induction opts as [|[k v] rest IH]; [simpl; auto |].
  rewrite validate_keys_cons, only_recognized_keys_cons.
  destruct (recognized k) eqn:E; simpl.
  - destruct IH as [IH | (before & key & w & after & -> & B & R & V)]; [auto |].
    right. exists ((k, v) :: before), key, w, after.
    rewrite only_recognized_keys_cons, E. auto.
  - right. exists [], k, v, rest. auto.
Qed.

Lemma only_recognized_keys_false (opts : Dict) (key : string) :
  In key (dict_keys opts) -> recognized key = false ->
  only_recognized_keys opts = false.
Proof.
  intros Hin R. destruct (only_recognized_keys opts) eqn:E; [| reflexivity].
  unfold only_recognized_keys in E. rewrite forallb_forall in E.
  unfold dict_keys in Hin. apply in_map_iff in Hin.
  destruct Hin as [kv [<- Hin]]. specialize (E kv Hin). congruence.
Qed.

(* ================================================================== *)
(** * Loading one configuration file *)

Section Load.
Context `{TomlLib}.

Lemma load_conf_loaded (content : bytes) (opts : Dict) (p : Path) :
  tomllib_load content = Loaded opts ->
  load_conf content p =
  (_validate_keys opts p ;;; _validate_values opts p ;;; Return opts).
Proof. intros L. unfold load_conf. rewrite L. reflexivity. Qed.

Lemma load_conf_syntax_error (content : bytes) (e : string) (p : Path) :
  tomllib_load content = TOMLDecodeError e ->
  load_conf content p =
  Raise (InvalidConfError [Lit "Invalid TOML syntax: "; StrExc e]).
Proof. intros L. unfold load_conf. rewrite L. reflexivity. Qed.

Lemma load_conf_valid (content : bytes) (opts : Dict) (p : Path) :
  tomllib_load content = Loaded opts ->
  only_recognized_keys opts = true ->
  schema_conformant opts = true ->
  load_conf content p = Return opts.
Proof.
  intros L K V. rewrite (load_conf_loaded _ _ _ L).
  apply (validate_keys_ok opts p) in K. rewrite K.
  rewrite (schema_conformant_validates opts p V). reflexivity.
Qed.

(** Whatever a load returns is the parsed mapping itself, and it has passed
    both validations. *)
Lemma load_conf_returns (content : bytes) (m : Dict) (p : Path) :
  load_conf content p = Return m ->
  tomllib_load content = Loaded m
  /\ _validate_keys m p = Return tt /\ _validate_values m p = Return tt.
Proof.
  unfold load_conf. destruct (tomllib_load content) as [opts|e]; simpl;
    [| discriminate].
  destruct (_validate_keys opts p) as [[]|e1] eqn:K; simpl; [| discriminate].
  destruct (_validate_values opts p) as [[]|e2] eqn:V; simpl; [| discriminate].
  intros [= <-]. auto.
Qed.

End Load.

Lemma find_all_false (A : Type) (f : A -> bool) (l : list A) :
  (forall x, In x l -> f x = false) -> find f l = None.
Proof.
  induction l as [|a r IH]; simpl; [reflexivity |].
  intros Hall. rewrite (Hall a) by auto. apply IH. auto.
Qed.

(* ================================================================== *)
(** * The properties of [read_toml_opts] *)

(** C1. When the nearest configuration file in the ancestor chain of a
    directory parses, and holds only recognized keys whose values conform
    to the schema, the call returns the parsed mapping itself: the same
    pairs in the same order, with nothing added from [DEFAULT_OPTS]. *)
Theorem C1_valid_file_returned_unchanged `{TomlLib}
    (fs : FileSystem) (cache : Cache) (conf_dir a : Path)
    (content : bytes) (opts : Dict) :
  cache_coherent fs cache ->
  nearest_conf_dir fs conf_dir = Some a ->
  fs (truediv a CONF_NAME) = Some content ->
  tomllib_load content = Loaded opts ->
  only_recognized_keys opts = true ->
  schema_conformant opts = true ->
  exists cache',
    read_toml_opts fs conf_dir cache = Some (Return opts, cache').
Proof.
  intros Hc N F L K V.
  destruct (read_toml_opts_resolved fs conf_dir cache Hc) as [c' [E _]].
  exists c'. rewrite E. repeat f_equal.
  rewrite (resolved_nearest fs conf_dir a N).
  rewrite (resolved_here fs a content F).
  apply load_conf_valid; assumption.
Qed.

Lemma C1_witness :
  exists cache',
    @read_toml_opts sample_tomllib (one_conf dir_a "wrap = 2") dir_a_b_c []
    = Some (Return [("wrap", PyInt 2)], cache').
Proof.
  apply (@C1_valid_file_returned_unchanged sample_tomllib
           (one_conf dir_a "wrap = 2") [] dir_a_b_c dir_a "wrap = 2"
           [("wrap", PyInt 2)]).
  - intros k v [].
  - reflexivity.
  - reflexivity.
  - reflexivity.
  - reflexivity.
  - reflexivity.
Defined.

(** C2. When no directory of the ancestor chain holds a file named
    [.mdformat.toml], the call returns the empty mapping. *)
Theorem C2_no_conf_file_empty_mapping `{TomlLib}
    (fs : FileSystem) (cache : Cache) (conf_dir : Path) :
  cache_coherent fs cache ->
  (forall a, In a (ancestors conf_dir) ->
             is_file fs (truediv a CONF_NAME) = false) ->
  exists cache',
    read_toml_opts fs conf_dir cache = Some (Return [], cache').
Proof.
  intros Hc Hno.
  destruct (read_toml_opts_resolved fs conf_dir cache Hc) as [c' [E _]].
  exists c'. rewrite E. repeat f_equal.
  unfold resolved, nearest_conf_dir.
  rewrite (find_all_false _ (has_conf fs) (ancestors conf_dir) Hno).
  reflexivity.
Qed.

Lemma C2_witness :
  exists cache',
    @read_toml_opts sample_tomllib no_files dir_a_b_c []
    = Some (Return [], cache').
Proof.
  apply (@C2_no_conf_file_empty_mapping sample_tomllib no_files [] dir_a_b_c).
  - intros k v [].
  - intros a _. reflexivity.
Defined.

(** C3. When the mapping parsed from the nearest configuration file has a
    key that is not a key of [DEFAULT_OPTS], the call raises
    [InvalidConfError]; the message names an unrecognized key of the
    mapping (the first one in iteration order) and lists the keys of
    [DEFAULT_OPTS]. *)
Theorem C3_unrecognized_key_rejected `{TomlLib}
    (fs : FileSystem) (cache : Cache) (conf_dir a : Path)
    (content : bytes) (opts : Dict) (bad : string) :
  cache_coherent fs cache ->
  nearest_conf_dir fs conf_dir = Some a ->
  fs (truediv a CONF_NAME) = Some content ->
  tomllib_load content = Loaded opts ->
  In bad (dict_keys opts) ->
  recognized bad = false ->
  exists key msg cache',
    read_toml_opts fs conf_dir cache = Some (Raise (InvalidConfError msg), cache')
    /\ In key (dict_keys opts) /\ recognized key = false
    /\ In (ReprStr key) msg
    /\ In (StrSet (dict_keys DEFAULT_OPTS)) msg
    /\ cause_of (InvalidConfError msg) = Some UnrecognizedKey.
Proof.
  intros Hc N F L Hin R.
  destruct (read_toml_opts_resolved fs conf_dir cache Hc) as [c' [E _]].
  pose proof (only_recognized_keys_false opts bad Hin R) as K.
  destruct (validate_keys_outcome opts (truediv a CONF_NAME))
    as [[_ K'] | (before & key & v & after & -> & B & Rk & V)]; [congruence |].
  exists key.
  exists [ Lit "Invalid key "; ReprStr key; Lit " in ";
           StrPath (truediv a CONF_NAME); Lit ".";
           Lit " Keys must be one of "; StrSet (dict_keys DEFAULT_OPTS);
           Lit "." ].
  exists c'. split; [| split; [| split; [| split; [| split]]]].
  - rewrite E. repeat f_equal.
    rewrite (resolved_nearest fs conf_dir a N).
    rewrite (resolved_here fs a content F).
    rewrite (load_conf_loaded _ _ _ L), V. reflexivity.
  - unfold dict_keys. rewrite map_app. apply in_or_app. right. left. reflexivity.
  - assumption.
  - simpl. tauto.
  - simpl. tauto.
  - reflexivity.
Qed.

Lemma C3_witness :
  exists key msg cache',
    @read_toml_opts sample_tomllib (one_conf dir_a "color = 1") dir_a_b_c []
    = Some (Raise (InvalidConfError msg), cache')
    /\ In key (dict_keys [("color", PyInt 1)]) /\ recognized key = false
    /\ In (ReprStr key) msg
    /\ In (StrSet (dict_keys DEFAULT_OPTS)) msg
    /\ cause_of (InvalidConfError msg) = Some UnrecognizedKey.
Proof.
  apply (@C3_unrecognized_key_rejected sample_tomllib
           (one_conf dir_a "color = 1") [] dir_a_b_c dir_a "color = 1"
           [("color", PyInt 1)] "color").
  - intros k v [].
  - reflexivity.
  - reflexivity.
  - reflexivity.
  - simpl. left. reflexivity.
  - reflexivity.
Defined.

(* ================================================================== *)
(** * The rules of the enforced keys *)

(** On a value that can be hashed, and on any value of [number], the check
    of an enforced key raises [InvalidConfError] as soon as the rule of
    the key is not satisfied. *)
Lemma check_value_hashable (key : string) (v : PyValue) (p : Path) :
  hashable v = true \/ key = "number" ->
  check_value key v p =
  if conforms key v then Return tt else Raise (invalid_value key p).
Proof.
  intros Hh. unfold check_value, conforms.
  destruct (rule_of key) as [rule|]; [| reflexivity].
  destruct (rule v); [reflexivity |].
  destruct Hh as [-> | ->]; [| reflexivity].
  rewrite andb_false_r. reflexivity.
Qed.

(** On a list or a table, the membership test raises [TypeError] before
    the rule is looked at. *)
Lemma check_value_unhashable (key : string) (v : PyValue) (p : Path) :
  In key enforced_keys -> key <> "number" -> hashable v = false ->
  check_value key v p =
  Raise (TypeError [Lit "unhashable type: "; ReprStr (type_name v)]).
Proof.
  intros Hin Hn Hh. unfold check_value.
  simpl in Hin.
  destruct Hin as [<- | [<- | [<- | [<- | [<- | []]]]]]; try congruence;
    destruct v; try discriminate; reflexivity.
Qed.

(** [wrap] is the first key checked: its value alone decides whether the
    validation gets past it. *)
Lemma wrap_decides (opts : Dict) (p : Path) (v : PyValue) :
  dict_get "wrap" opts = Some v ->
  (_validate_values opts p = Return tt -> wrap_rule v = true)
  /\ (wrap_rule v = false -> hashable v = true ->
        _validate_values opts p = Raise (invalid_value "wrap" p))
  /\ (hashable v = false ->
        _validate_values opts p =
        Raise (TypeError [Lit "unhashable type: "; ReprStr (type_name v)])).
Proof.
  intros G. rewrite validate_values_checks.
  assert (K : check_key "wrap" opts p = check_value "wrap" v p)
    by (unfold check_key; rewrite G; reflexivity).
  rewrite K. repeat split.
  - intros E. apply bind_unit_ok in E. destruct E as [E _].
    apply check_value_ok in E. exact E.
  - intros R Hh. rewrite check_value_hashable by auto.
    unfold conforms. simpl. rewrite R. reflexivity.
  - intros Hh. rewrite check_value_unhashable; simpl; auto; discriminate.
Qed.

(** A mapping that holds just [wrap] passes exactly when the rule holds. *)
Lemma wrap_alone (v : PyValue) (p : Path) :
  _validate_values [("wrap", v)] p = Return tt <-> wrap_rule v = true.
Proof.
  rewrite validate_values_ok. split.
  - intros Hall. apply (Hall "wrap" v); simpl; auto.
  - intros R key w _. simpl.
    destruct (String.eqb key "wrap") eqn:E; [| discriminate].
    apply String.eqb_eq in E. subst key. intros [= <-]. exact R.
Qed.

Example wrap_1_fails (p : Path) :
  _validate_values [("wrap", PyInt 1)] p = Raise (invalid_value "wrap" p).
Proof. reflexivity. Qed.

Example wrap_2_succeeds (p : Path) :
  _validate_values [("wrap", PyInt 2)] p = Return tt.
Proof. reflexivity. Qed.

Example wrap_keep_succeeds (p : Path) :
  _validate_values [("wrap", PyStr "keep")] p = Return tt.
Proof. reflexivity. Qed.

Example wrap_bad_fails (p : Path) :
  _validate_values [("wrap", PyStr "bad")] p = Raise (invalid_value "wrap" p).
Proof. reflexivity. Qed.

Example wrap_true_fails (p : Path) :
  _validate_values [("wrap", PyBool true)] p = Raise (invalid_value "wrap" p).
Proof. reflexivity. Qed.

(** C4. A configuration file that gives [wrap] an array: the value is
    neither an integer above 1 nor ["keep"] nor ["no"], yet the call does
    not raise [InvalidConfError]; hashing the list for the membership test
    raises [TypeError]. *)
Theorem C4_wrap_array_raises_TypeError :
  @read_toml_opts sample_tomllib (one_conf dir_a "wrap = [80]") dir_a []
  = Some (Raise (TypeError [Lit "unhashable type: "; ReprStr "list"]), [])
  /\ wrap_rule (PyList [PyInt 80]) = false
  /\ forall conf_path,
       _validate_values [("wrap", PyList [PyInt 80])] conf_path
       = Raise (TypeError [Lit "unhashable type: "; ReprStr "list"]).
Proof. repeat split. Qed.

Lemma check_key_single (key' key : string) (v : PyValue) (p : Path) :
  check_key key' [(key, v)] p =
  if String.eqb key' key then check_value key' v p else Return tt.
Proof.
  unfold check_key. simpl. destruct (String.eqb key' key); reflexivity.
Qed.

(** A mapping that holds one enforced key passes exactly when the rule of
    the key holds; when it does not pass, and the value can be hashed or
    the key is [number], the error is [InvalidConfError]. *)
Lemma enforced_key_alone (key : string) (v : PyValue) (p : Path) :
  In key enforced_keys ->
  (_validate_values [(key, v)] p = Return tt <-> conforms key v = true)
  /\ (conforms key v = false -> hashable v = true \/ key = "number" ->
        _validate_values [(key, v)] p = Raise (invalid_value key p)).
Proof.
  intros Hin. split.
  - rewrite validate_values_ok. split.
    + intros Hall. apply (Hall key v Hin). simpl.
      rewrite String.eqb_refl. reflexivity.
    + intros C key' w _. simpl.
      destruct (String.eqb key' key) eqn:E; [| discriminate].
      apply String.eqb_eq in E. subst key'. intros [= <-]. exact C.
  - intros C Hh. rewrite validate_values_checks, !check_key_single.
    pose proof (check_value_hashable key v p Hh) as CV. rewrite C in CV.
    simpl in Hin.
    destruct Hin as [<- | [<- | [<- | [<- | [<- | []]]]]];
      cbn [String.eqb Ascii.eqb Bool.eqb]; rewrite CV; reflexivity.
Qed.

(** C5. A mapping that gives [end_of_line] an array, or a bullet marker a
    table: the value is none of the allowed strings, yet the validation
    does not raise [InvalidConfError] but [TypeError]. [number] is tested
    with [isinstance] and does raise [InvalidConfError] on any value that
    is not a boolean. *)
Theorem C5_enum_array_raises_TypeError (conf_path : Path) :
  _validate_values [("end_of_line", PyList [PyStr "lf"])] conf_path
  = Raise (TypeError [Lit "unhashable type: "; ReprStr "list"])
  /\ _validate_values [("primary_bullet_list_marker", PyDict [])] conf_path
     = Raise (TypeError [Lit "unhashable type: "; ReprStr "dict"])
  /\ _validate_values [("secondary_bullet_list_marker", PyList [PyStr "*"])]
       conf_path
     = Raise (TypeError [Lit "unhashable type: "; ReprStr "list"])
  /\ end_of_line_rule (PyList [PyStr "lf"]) = false
  /\ _validate_values [("number", PyList [PyBool true])] conf_path
     = Raise (invalid_value "number" conf_path).
Proof. repeat split. Qed.

Example number_1_fails (p : Path) :
  _validate_values [("number", PyInt 1)] p = Raise (invalid_value "number" p).
Proof. reflexivity. Qed.

Example number_string_fails (p : Path) :
  _validate_values [("number", PyStr "true")] p
  = Raise (invalid_value "number" p).
Proof. reflexivity. Qed.

Example number_true_succeeds (p : Path) :
  _validate_values [("number", PyBool true)] p = Return tt.
Proof. reflexivity. Qed.

(* ================================================================== *)
(** * The keys without a rule *)

Lemma dict_get_set (k key : string) (v : PyValue) (opts : Dict) :
  dict_get k (dict_set key v opts) =
  if String.eqb k key then Some v else dict_get k opts.
Proof.
  induction opts as [|[k' w] rest IH]; simpl.
  - reflexivity.
  - destruct (String.eqb key k') eqn:E; simpl.
    + apply String.eqb_eq in E. subst k'.
      destruct (String.eqb k key); reflexivity.
    + rewrite IH. destruct (String.eqb k key) eqn:E2; [| reflexivity].
      apply String.eqb_eq in E2. subst k. rewrite E. reflexivity.
Qed.

Lemma only_recognized_keys_set (key : string) (v : PyValue) (opts : Dict) :
  recognized key = true -> only_recognized_keys opts = true ->
  only_recognized_keys (dict_set key v opts) = true.
Proof.
  intros R. induction opts as [|[k' w] rest IH].
  - intros _. cbn [dict_set]. rewrite only_recognized_keys_cons, R. reflexivity.
  - rewrite only_recognized_keys_cons. intros K.
    apply andb_true_iff in K. destruct K as [K1 K2]. cbn [dict_set].
    destruct (String.eqb key k'); rewrite only_recognized_keys_cons, K1; auto.
Qed.

Lemma unenforced_recognized (key : string) :
  In key unenforced_keys -> recognized key = true /\ rule_of key = None.
Proof.
  simpl. intros [<- | [<- | [<- | [<- | [<- | [<- | []]]]]]]; split; reflexivity.
Qed.

Lemma check_key_set_other (k key : string) (v : PyValue) (opts : Dict) (p : Path) :
  String.eqb k key = false ->
  check_key k (dict_set key v opts) p = check_key k opts p.
Proof.
  intros E. unfold check_key. rewrite dict_get_set, E. reflexivity.
Qed.

(** C6. Setting a key that has no enforced rule to any value at all
    changes nothing to the outcome of the value validation, and keeps the
    keys recognized: a configuration file that is accepted stays accepted
    whatever value it gives to such a key. *)
Theorem C6_unenforced_keys_accept_any_value `{TomlLib}
    (opts : Dict) (key : string) (v : PyValue) (conf_path : Path) :
  In key unenforced_keys ->
  _validate_values (dict_set key v opts) conf_path
  = _validate_values opts conf_path
  /\ (only_recognized_keys opts = true ->
      _validate_keys (dict_set key v opts) conf_path = Return tt)
  /\ (forall content content',
        tomllib_load content = Loaded opts ->
        tomllib_load content' = Loaded (dict_set key v opts) ->
        load_conf content conf_path = Return opts ->
        load_conf content' conf_path = Return (dict_set key v opts)).
Proof.
  intros Hin.
  assert (V : _validate_values (dict_set key v opts) conf_path
              = _validate_values opts conf_path).
  { rewrite !validate_values_checks.
    simpl in Hin.
    destruct Hin as [<- | [<- | [<- | [<- | [<- | [<- | []]]]]]];
      rewrite !check_key_set_other by reflexivity; reflexivity. }
  assert (K : only_recognized_keys opts = true ->
              _validate_keys (dict_set key v opts) conf_path = Return tt).
  { intros K. apply validate_keys_ok. apply only_recognized_keys_set; [| exact K].
    apply unenforced_recognized. exact Hin. }
  repeat split; [exact V | exact K |].
  intros content content' L L' R.
  apply load_conf_returns in R. destruct R as (_ & RK & RV).
  rewrite (load_conf_loaded _ _ _ L'), V, RV.
  rewrite K by (apply (validate_keys_ok opts conf_path); exact RK).
  reflexivity.
Qed.

Lemma C6_witness :
  _validate_values
    (dict_set "thematic_break_width" (PyStr "wide") [("wrap", PyInt 40)]) dir_a
  = _validate_values [("wrap", PyInt 40)] dir_a
  /\ _validate_keys
       (dict_set "thematic_break_width" (PyStr "wide") [("wrap", PyInt 40)]) dir_a
     = Return tt.
Proof.
  destruct (@C6_unenforced_keys_accept_any_value sample_tomllib
              [("wrap", PyInt 40)] "thematic_break_width" (PyStr "wide") dir_a)
    as (V & K & _).
  - simpl. tauto.
  - split; [exact V | apply K; reflexivity].
Defined.

(** A mapping that holds nothing but keys without a rule passes both
    validations, whatever the values are. *)
Lemma unenforced_only_validates (opts : Dict) (p : Path) :
  (forall key, In key (dict_keys opts) -> In key unenforced_keys) ->
  _validate_keys opts p = Return tt /\ _validate_values opts p = Return tt.
Proof.
  intros Hall. split.
  - apply validate_keys_ok. unfold only_recognized_keys.
    apply forallb_forall. intros [k w] Hin. simpl.
    apply unenforced_recognized. apply Hall.
    unfold dict_keys. apply in_map_iff. exists (k, w). auto.
  - apply validate_values_ok. intros key w _ G.
    unfold conforms.
    assert (U : In key unenforced_keys).
    { apply Hall. unfold dict_keys. apply in_map_iff. exists (key, w).
      split; [reflexivity | apply dict_get_In; exact G]. }
    apply unenforced_recognized in U. destruct U as [_ ->]. reflexivity.
Qed.

(* ================================================================== *)
(** * The failures of a load *)




(** C7. A configuration file that gives [end_of_line] an array: the
    content is at fault, yet the call raises [TypeError], which is not
    [InvalidConfError] and is none of its three causes. *)
Theorem C7_array_value_raises_other_error :
  @read_toml_opts sample_tomllib (one_conf dir_a "end_of_line = ['lf']")
    dir_a_b_c []
  = Some (Raise (TypeError [Lit "unhashable type: "; ReprStr "list"]), [])
  /\ cause_of (TypeError [Lit "unhashable type: "; ReprStr "list"]) = None.
Proof. split; reflexivity. Qed.

(* ================================================================== *)
(** * Caching *)

(** C8. When a call has returned a mapping, the next call with the same
    directory returns the same mapping, whatever has become of the file
    system in between: the second call is served from the cache. *)
Theorem C8_second_call_served_from_cache `{TomlLib}
    (fs fs' : FileSystem) (conf_dir : Path) (cache cache1 : Cache) (m : Dict) :
  read_toml_opts fs conf_dir cache = Some (Return m, cache1) ->
  read_toml_opts fs' conf_dir cache1
  = Some (Return m, cache_touch conf_dir m cache1).
Proof.
  unfold read_toml_opts. intros E.
  apply read_toml_opts_rec_cached in E.
  rewrite read_toml_opts_rec_S, E. reflexivity.
Qed.

Lemma C8_witness :
  exists cache1,
    @read_toml_opts sample_tomllib (one_conf dir_a "wrap = 2") dir_a_b_c []
    = Some (Return [("wrap", PyInt 2)], cache1)
    /\ @read_toml_opts sample_tomllib (one_conf dir_a "wrap = 40") dir_a_b_c cache1
       = Some (Return [("wrap", PyInt 2)],
               cache_touch dir_a_b_c [("wrap", PyInt 2)] cache1).
Proof.
  eexists. split.
  - reflexivity.
  - apply (@C8_second_call_served_from_cache sample_tomllib
             (one_conf dir_a "wrap = 2") (one_conf dir_a "wrap = 40")
             dir_a_b_c []).
    reflexivity.
Defined.

(** A call that raises leaves no entry for its argument: the next call
    reads the file system again. *)
Example raised_error_is_not_cached :
  exists cache1,
    @read_toml_opts sample_tomllib (one_conf dir_a "color = 1") dir_a []
    = Some (Raise (invalid_key "color" (truediv dir_a CONF_NAME)), cache1)
    /\ @read_toml_opts sample_tomllib (one_conf dir_a "wrap = 2") dir_a cache1
       = Some (Return [("wrap", PyInt 2)], [(dir_a, [("wrap", PyInt 2)])]).
Proof. eexists. split; reflexivity. Qed.

(* ================================================================== *)
(** * The ancestor search *)

(** C9. When a directory holds no configuration file itself and the
    nearest one is in a directory [a] further up, the call returns what
    loading and validating the file of [a] gives: its content, when it is
    valid. *)
Theorem C9_nearest_ancestor_file `{TomlLib}
    (fs : FileSystem) (cache : Cache) (conf_dir a : Path) (content : bytes) :
  cache_coherent fs cache ->
  is_file fs (truediv conf_dir CONF_NAME) = false ->
  nearest_conf_dir fs conf_dir = Some a ->
  fs (truediv a CONF_NAME) = Some content ->
  In a (ancestors (parent conf_dir)) /\ a <> conf_dir
  /\ (exists cache',
        read_toml_opts fs conf_dir cache
        = Some (load_conf content (truediv a CONF_NAME), cache'))
  /\ (forall opts,
        tomllib_load content = Loaded opts ->
        only_recognized_keys opts = true -> schema_conformant opts = true ->
        load_conf content (truediv a CONF_NAME) = Return opts).
Proof.
  intros Hc Hno N F.
  assert (Hne : a <> conf_dir).
  { intros ->. unfold is_file in Hno. rewrite F in Hno. discriminate. }
  split; [| split; [exact Hne | split; [| intros opts; apply load_conf_valid]]].
  - unfold nearest_conf_dir in N. rewrite ancestors_unfold in N.
    cbn [find] in N. unfold has_conf at 1 in N. rewrite Hno in N.
    destruct (path_eqb conf_dir (parent conf_dir)); [discriminate |].
    apply find_some in N. tauto.
  - destruct (read_toml_opts_resolved fs conf_dir cache Hc) as [c' [E _]].
    exists c'. rewrite E. repeat f_equal.
    rewrite (resolved_nearest fs conf_dir a N).
    apply resolved_here. exact F.
Qed.

Lemma C9_witness :
  exists cache',
    @read_toml_opts sample_tomllib (one_conf dir_a "wrap = 40") dir_a_b_c []
    = Some (Return [("wrap", PyInt 40)], cache').
Proof.
  destruct (@C9_nearest_ancestor_file sample_tomllib
              (one_conf dir_a "wrap = 40") [] dir_a_b_c dir_a "wrap = 40")
    as (_ & _ & (c' & E) & _).
  - intros k v [].
  - reflexivity.
  - reflexivity.
  - reflexivity.
  - exists c'. exact E.
Defined.

(* ================================================================== *)
(** * Termination *)

Lemma read_toml_opts_rec_enough_fuel `{TomlLib} (fs : FileSystem) (extra : nat) :
  forall (d : Path) (c : Cache),
    read_toml_opts_rec (extra + S (depth d)) fs d c = read_toml_opts fs d c.
Proof.
  induction extra as [|extra IH]; intros d c; [reflexivity |].
  destruct (read_toml_opts_rec_total fs (S (depth d)) d c) as [r [c' E]];
    [lia |].
  unfold read_toml_opts in *. rewrite E.
  cbn [Nat.add]. apply read_toml_opts_rec_more_fuel.
  rewrite IH. exact E.
Qed.

(** The last directory of an ancestor chain is the one without components. *)
Lemma ancestors_from_last (n : nat) :
  forall (d x : Path),
    depth d = n -> last (ancestors_from n d) x = mkPath (root d) [].
Proof.
  induction n as [|n IH]; intros d x Hn.
  - simpl. destruct d as [r t]. unfold depth in Hn. simpl in *.
    destruct t; [reflexivity | discriminate].
  - assert (Hp : depth (parent d) = n) by (rewrite depth_parent; lia).
    rewrite <- (parent_root d), <- (IH (parent d) x Hp).
    cbn [ancestors_from last].
    destruct n; reflexivity.
Qed.

Lemma ancestors_last (d : Path) :
  last (ancestors d) d = mkPath (root d) [].
Proof. apply ancestors_from_last. reflexivity. Qed.

(** C10. Every call comes back: the recursion is on the parent directory,
    which has one component less, so [depth conf_dir + 1] steps are always
    enough, and more fuel changes nothing. The test of the source,
    [conf_dir == parent_dir], holds exactly for the directory without
    components, where every ancestor chain ends. *)
Theorem C10_read_toml_opts_terminates `{TomlLib}
    (fs : FileSystem) (conf_dir : Path) (cache : Cache) :
  (exists r cache', read_toml_opts fs conf_dir cache = Some (r, cache'))
  /\ (forall extra,
        read_toml_opts_rec (extra + S (depth conf_dir)) fs conf_dir cache
        = read_toml_opts fs conf_dir cache)
  /\ (path_eqb conf_dir (parent conf_dir) = false ->
      S (depth (parent conf_dir)) = depth conf_dir)
  /\ (path_eqb conf_dir (parent conf_dir) = true <-> depth conf_dir = 0)
  /\ last (ancestors conf_dir) conf_dir = mkPath (root conf_dir) [].
Proof.
  split; [| split; [| split; [| split]]].
  - apply read_toml_opts_rec_total. lia.
  - intros extra. apply read_toml_opts_rec_enough_fuel.
  - intros P. apply differs_from_parent in P. rewrite depth_parent. lia.
  - rewrite path_eqb_eq, <- parent_self_iff. split; congruence.
  - apply ancestors_last.
Qed.

Lemma C10_witness :
  (exists r cache',
     @read_toml_opts sample_tomllib no_files dir_a_b_c [] = Some (r, cache'))
  /\ S (depth (parent dir_a_b_c)) = depth dir_a_b_c
  /\ depth dir_root = 0.
Proof.
  destruct (@C10_read_toml_opts_terminates sample_tomllib no_files dir_root [])
    as (_ & _ & _ & Top & _).
  destruct (@C10_read_toml_opts_terminates sample_tomllib no_files dir_a_b_c [])
    as (T & _ & D & _).
  split; [exact T | split].
  - apply D. reflexivity.
  - apply Top. reflexivity.
Defined.

(* ================================================================== *)
(** * Further properties: what a call returns and what it leaves behind *)

Section Further.
Context `{TomlLib}.

Lemma valid_mapping_nil : valid_mapping [].
Proof. split; [reflexivity | intros key v _; discriminate]. Qed.

Lemma load_conf_valid_mapping (content : bytes) (p : Path) (m : Dict) :
  load_conf content p = Return m -> valid_mapping m.
Proof.
  intros L. apply load_conf_returns in L. destruct L as (_ & K & V).
  split; [apply (validate_keys_ok m p); exact K |].
  apply (validate_values_ok m p). exact V.
Qed.

Lemma cache_valid_touch (k : Path) (v : Dict) (c : Cache) :
  cache_valid c -> cache_get k c = Some v -> cache_valid (cache_touch k v c).
Proof.
  intros Hc G k' v' Hin. apply (Hc k' v'). eapply In_cache_touch; eassumption.
Qed.

Lemma cache_valid_store (k : Path) (v : Dict) (c : Cache) :
  cache_valid c -> valid_mapping v -> cache_valid (cache_store k v c).
Proof.
  intros Hc Hv k' v' Hin. apply In_cache_store in Hin.
  destruct Hin as [[= -> ->] | Hin]; [exact Hv | apply (Hc k' v'); exact Hin].
Qed.

Lemma read_toml_opts_rec_valid (fs : FileSystem) (fuel : nat) :
  forall (d : Path) (c c' : Cache) (r : Result Dict),
    cache_valid c ->
    read_toml_opts_rec fuel fs d c = Some (r, c') ->
    cache_valid c' /\ (forall m, r = Return m -> valid_mapping m).
Proof.
  induction fuel as [|fuel IH]; intros d c c' r Hc; [discriminate |].
  rewrite read_toml_opts_rec_S.
  destruct (cache_get d c) as [v|] eqn:G.
  - intros [= <- <-]. split; [apply cache_valid_touch; assumption |].
    intros m [= <-]. apply (Hc d v). apply cache_get_In. exact G.
  - destruct (fs (truediv d CONF_NAME)) as [content|].
    + destruct (load_conf content (truediv d CONF_NAME)) as [v|e] eqn:L;
        intros [= <- <-].
      * pose proof (load_conf_valid_mapping _ _ _ L) as Hv.
        split; [apply cache_valid_store; assumption |].
        intros m [= <-]. exact Hv.
      * split; [exact Hc | discriminate].
    + destruct (path_eqb d (parent d)).
      * intros [= <- <-].
        split; [apply cache_valid_store; [exact Hc | apply valid_mapping_nil] |].
        intros m [= <-]. apply valid_mapping_nil.
      * destruct (read_toml_opts_rec fuel fs (parent d) c) as [[r1 c1]|] eqn:E1;
          [| discriminate].
        destruct (IH _ _ _ _ Hc E1) as [Hc1 Hr1].
        destruct r1 as [v|e]; intros [= <- <-].
        -- split; [apply cache_valid_store; [exact Hc1 | apply Hr1; reflexivity] |].
           intros m [= <-]. apply Hr1. reflexivity.
        -- split; [exact Hc1 | discriminate].
Qed.

(** X1. Whatever the file system was or has become, a call made with a
    cache of validated mappings returns, if it returns a mapping, a
    validated one: all its keys are keys of [DEFAULT_OPTS] and the value
    of every enforced key satisfies its rule. The cache it leaves holds
    validated mappings only. *)
Theorem X1_returned_mapping_is_validated
    (fs : FileSystem) (conf_dir : Path) (cache cache' : Cache) (m : Dict) :
  cache_valid cache ->
  read_toml_opts fs conf_dir cache = Some (Return m, cache') ->
  valid_mapping m /\ cache_valid cache'.
Proof.
  intros Hc E. unfold read_toml_opts in E.
  destruct (read_toml_opts_rec_valid _ _ _ _ _ _ Hc E) as [Hc' Hr].
  split; [apply Hr; reflexivity | exact Hc'].
Qed.

Lemma call_all_resolved (fs : FileSystem) (dirs : list Path) :
  forall c, cache_coherent fs c ->
            fst (call_all fs dirs c) = map (resolved fs) dirs.
Proof.
  induction dirs as [|d rest IH]; intros c Hc; [reflexivity |].
  cbn [call_all map].
  destruct (read_toml_opts_resolved fs d c Hc) as [c' [E Hc']].
  rewrite E. specialize (IH c' Hc').
  destruct (call_all fs rest c') as [rs c'']. simpl in *. rewrite IH.
  reflexivity.
Qed.

(** X2. On a file system that does not change, the cache is invisible: in
    a process that starts with an empty cache, every call of any sequence
    of calls returns, or raises, what a walk without a cache gives for its
    directory. *)
Theorem X2_cache_is_transparent (fs : FileSystem) (dirs : list Path) :
  fst (call_all fs dirs []) = map (resolved fs) dirs.
Proof. apply call_all_resolved. apply coherent_nil. Qed.

Lemma read_toml_opts_rec_raise (fs : FileSystem) (fuel : nat) :
  forall (d : Path) (c c' : Cache) (e : Exception),
    read_toml_opts_rec fuel fs d c = Some (Raise e, c') ->
    c' = c /\ cache_get d c = None.
Proof.
  induction fuel as [|fuel IH]; intros d c c' e; [discriminate |].
  rewrite read_toml_opts_rec_S.
  destruct (cache_get d c) as [v|] eqn:G; [discriminate |].
  destruct (fs (truediv d CONF_NAME)) as [content|].
  - destruct (load_conf content (truediv d CONF_NAME)); intros [= <- <-]. auto.
  - destruct (path_eqb d (parent d)); [discriminate |].
    destruct (read_toml_opts_rec fuel fs (parent d) c) as [[r1 c1]|] eqn:E1;
      [| discriminate].
    destruct r1 as [v|e1]; intros [= <- <-].
    destruct (IH _ _ _ _ E1) as [-> _]. auto.
Qed.

(** X3. A call that raises leaves the cache exactly as it found it:
    nothing is stored for the directory or for any ancestor visited on
    the way, so the next call walks the file system again. *)
Theorem X3_raise_leaves_cache_unchanged
    (fs : FileSystem) (conf_dir : Path) (cache cache' : Cache) (e : Exception) :
  read_toml_opts fs conf_dir cache = Some (Raise e, cache') ->
  cache' = cache /\ cache_get conf_dir cache' = None.
Proof.
  unfold read_toml_opts. intros E.
  apply read_toml_opts_rec_raise in E. destruct E as [-> G]. auto.
Qed.

End Further.

Lemma X1_witness :
  valid_mapping [("wrap", PyInt 2)]
  /\ cache_valid [(dir_a, [("wrap", PyInt 2)])].
Proof.
  apply (@X1_returned_mapping_is_validated sample_tomllib
           (one_conf dir_a "wrap = 2") dir_a [] [(dir_a, [("wrap", PyInt 2)])]
           [("wrap", PyInt 2)]).
  - intros k v [].
  - reflexivity.
Defined.

Lemma X3_witness :
  ([] : Cache) = [] /\ cache_get dir_a_b_c [] = None.
Proof.
  apply (@X3_raise_leaves_cache_unchanged sample_tomllib
           (one_conf dir_a "color = 1") dir_a_b_c [] []
           (invalid_key "color" (truediv dir_a CONF_NAME))).
  reflexivity.
Defined.

(* ================================================================== *)
(** * Further properties: the shape of the cache *)

Lemma cache_remove_keys (k k' : Path) (c : Cache) :
  In k' (map fst (cache_remove k c)) -> In k' (map fst c).
Proof.
  intros Hin. apply in_map_iff in Hin. destruct Hin as [e [<- Hin]].
  apply in_map. eapply In_cache_remove. exact Hin.
Qed.

Lemma cache_remove_NoDup (k : Path) (c : Cache) :
  NoDup (map fst c) ->
  NoDup (map fst (cache_remove k c)) /\ ~ In k (map fst (cache_remove k c)).
Proof.
  induction c as [|[k' v'] rest IH]; simpl; intros ND.
  - split; [constructor | tauto].
  - inversion ND as [|x l Hnotin ND']; subst.
    destruct (path_eqb k k') eqn:E.
    + apply path_eqb_eq in E. subst k'. auto.
    + apply path_eqb_neq in E. destruct (IH ND') as [ND1 Hk]. simpl. split.
      * constructor; [| exact ND1]. intros Hin. apply Hnotin.
        eapply cache_remove_keys. exact Hin.
      * intros [A | A]; [congruence | contradiction].
Qed.

Lemma cache_remove_length (k : Path) (v : Dict) (c : Cache) :
  cache_get k c = Some v -> S (List.length (cache_remove k c)) = List.length c.
Proof.
  induction c as [|[k' v'] rest IH]; simpl; [discriminate |].
  destruct (path_eqb k k'); [reflexivity |].
  intros G. simpl. rewrite (IH G). reflexivity.
Qed.

Lemma removelast_NoDup (A : Type) (l : list A) :
  NoDup l -> NoDup (removelast l).
Proof.
  induction l as [|a [|b r] IH]; simpl; intros ND; try constructor.
  - inversion ND as [|x l Hnotin ND']; subst. intros Hin. apply Hnotin.
    apply (In_removelast A a (b :: r)). exact Hin.
  - apply IH. inversion ND; assumption.
Qed.

Lemma map_removelast (A B : Type) (f : A -> B) (l : list A) :
  map f (removelast l) = removelast (map f l).
Proof.
  induction l as [|a [|b r] IH]; simpl in *; [reflexivity | reflexivity |].
  rewrite IH. reflexivity.
Qed.

Lemma cache_wf_touch (k : Path) (v : Dict) (c : Cache) :
  cache_wf c -> cache_get k c = Some v -> cache_wf (cache_touch k v c).
Proof.
  intros [ND Len] G. unfold cache_touch. split.
  - simpl. destruct (cache_remove_NoDup k c ND) as [ND1 Hk].
    constructor; assumption.
  - simpl. rewrite (cache_remove_length k v c G). exact Len.
Qed.

Lemma cache_wf_store (k : Path) (v : Dict) (c : Cache) :
  cache_wf c -> cache_wf (cache_store k v c).
Proof.
  intros [ND Len]. unfold cache_store.
  destruct (cache_get k c) eqn:G; [split; assumption |].
  apply cache_get_None in G.
  destruct (maxsize <=? List.length c)%nat eqn:Full.
  - apply Nat.leb_le in Full. split.
    + simpl. constructor.
      * rewrite map_removelast. intros Hin. apply G.
        apply In_removelast. exact Hin.
      * rewrite map_removelast. apply removelast_NoDup. exact ND.
    + simpl. rewrite length_removelast. unfold maxsize in *. lia.
  - apply Nat.leb_gt in Full. split.
    + simpl. constructor; assumption.
    + simpl. lia.
Qed.

Lemma read_toml_opts_rec_wf `{TomlLib} (fs : FileSystem) (fuel : nat) :
  forall (d : Path) (c c' : Cache) (r : Result Dict),
    cache_wf c -> read_toml_opts_rec fuel fs d c = Some (r, c') -> cache_wf c'.
Proof.
  induction fuel as [|fuel IH]; intros d c c' r Hc; [discriminate |].
  rewrite read_toml_opts_rec_S.
  destruct (cache_get d c) as [v|] eqn:G.
  - intros [= <- <-]. apply cache_wf_touch; assumption.
  - destruct (fs (truediv d CONF_NAME)) as [content|].
    + destruct (load_conf content (truediv d CONF_NAME)); intros [= <- <-];
        [apply cache_wf_store |]; exact Hc.
    + destruct (path_eqb d (parent d)).
      * intros [= <- <-]. apply cache_wf_store. exact Hc.
      * destruct (read_toml_opts_rec fuel fs (parent d) c) as [[r1 c1]|] eqn:E1;
          [| discriminate].
        pose proof (IH _ _ _ _ Hc E1) as Hc1.
        destruct r1; intros [= <- <-]; [apply cache_wf_store |]; exact Hc1.
Qed.

(** X4. The cache is bounded: a call made with a cache of at most 128
    entries for distinct directories leaves a cache of at most 128 entries
    for distinct directories, however many ancestors it has visited. *)
Theorem X4_cache_stays_bounded `{TomlLib}
    (fs : FileSystem) (conf_dir : Path) (cache cache' : Cache) (r : Result Dict) :
  NoDup (map fst cache) -> List.length cache <= 128 ->
  read_toml_opts fs conf_dir cache = Some (r, cache') ->
  NoDup (map fst cache') /\ List.length cache' <= 128.
Proof.
  intros ND Len E. unfold read_toml_opts in E.
  apply (read_toml_opts_rec_wf _ _ _ _ _ _ (conj ND Len) E).
Qed.

Lemma X4_witness :
  NoDup (map fst [(dir_a_b_c, ([] : Dict)); (dir_a_b, []); (dir_a, []);
                  (dir_root, [])])
  /\ List.length
       [(dir_a_b_c, ([] : Dict)); (dir_a_b, []); (dir_a, []); (dir_root, [])]
     <= 128.
Proof.
  apply (@X4_cache_stays_bounded sample_tomllib no_files dir_a_b_c []
           [(dir_a_b_c, []); (dir_a_b, []); (dir_a, []); (dir_root, [])]
           (Return [])).
  - constructor.
  - simpl. lia.
  - reflexivity.
Defined.

Lemma cache_store_head (k : Path) (v : Dict) (c : Cache) :
  cache_get k c = None -> exists rest, cache_store k v c = (k, v) :: rest.
Proof.
  intros G. unfold cache_store. rewrite G.
  destruct (maxsize <=? List.length c)%nat; eauto.
Qed.

Section Recency.
Context `{TomlLib}.

(** A call that misses, finds no file in the directory and goes up to the
    parent stores what the call for the parent has returned. *)
Lemma read_toml_opts_rec_up (fs : FileSystem) (fuel : nat)
    (d : Path) (c c' : Cache) (m : Dict) :
  cache_get d c = None ->
  fs (truediv d CONF_NAME) = None ->
  path_eqb d (parent d) = false ->
  read_toml_opts_rec (S fuel) fs d c = Some (Return m, c') ->
  exists c1, read_toml_opts_rec fuel fs (parent d) c = Some (Return m, c1)
             /\ cache_get d c1 = None /\ c' = cache_store d m c1.
Proof.
  intros G F P. rewrite read_toml_opts_rec_S, G, F, P.
  destruct (read_toml_opts_rec fuel fs (parent d) c) as [[r1 c1]|] eqn:E1;
    [| discriminate].
  destruct r1 as [v|e]; intros [= <- <-].
  exists c1. repeat split.
  apply cache_get_None. intros Hin.
  destruct (read_toml_opts_rec_keys _ _ _ _ _ _ E1 d Hin) as [A | A].
  - apply cache_get_None in G. contradiction.
  - apply not_in_ancestors_parent in A; [assumption |].
    apply differs_from_parent. assumption.
Qed.

(** After a call has returned a mapping, the entry of its argument is the
    most recently used one. *)
Lemma read_toml_opts_rec_head (fs : FileSystem) (fuel : nat)
    (d : Path) (c c' : Cache) (m : Dict) :
  read_toml_opts_rec fuel fs d c = Some (Return m, c') ->
  exists rest, c' = (d, m) :: rest.
Proof.
  destruct fuel as [|fuel]; [discriminate |]. intros E.
  destruct (cache_get d c) as [v|] eqn:G.
  - rewrite read_toml_opts_rec_S, G in E. injection E as <- <-.
    unfold cache_touch. eauto.
  - destruct (fs (truediv d CONF_NAME)) as [content|] eqn:F.
    + rewrite read_toml_opts_rec_S, G, F in E.
      destruct (load_conf content (truediv d CONF_NAME)); [| discriminate].
      injection E as <- <-. apply cache_store_head. exact G.
    + destruct (path_eqb d (parent d)) eqn:P.
      * rewrite read_toml_opts_rec_S, G, F, P in E. injection E as <- <-.
        apply cache_store_head. exact G.
      * destruct (read_toml_opts_rec_up _ _ _ _ _ _ G F P E)
          as (c1 & _ & G1 & ->).
        apply cache_store_head. exact G1.
Qed.

(** X5. A call that returns a mapping leaves the entry of its directory in
    the most recently used position. When the call has missed, found no
    file in the directory and gone up, the entry of the parent directory
    comes right after it, with the same mapping: the directories between
    the argument and the configuration file are memoized as well, so a
    later call for a sibling directory stops at the parent. *)
Theorem X5_walk_memoizes_the_chain
    (fs : FileSystem) (conf_dir : Path) (cache cache' : Cache) (m : Dict) :
  read_toml_opts fs conf_dir cache = Some (Return m, cache') ->
  (exists rest, cache' = (conf_dir, m) :: rest)
  /\ (cache_get conf_dir cache = None ->
      fs (truediv conf_dir CONF_NAME) = None ->
      path_eqb conf_dir (parent conf_dir) = false ->
      exists rest, cache' = (conf_dir, m) :: (parent conf_dir, m) :: rest).
Proof.
  unfold read_toml_opts. intros E. split.
  - eapply read_toml_opts_rec_head. exact E.
  - intros G F P.
    destruct (read_toml_opts_rec_up _ _ _ _ _ _ G F P E) as (c1 & E1 & G1 & ->).
    destruct (read_toml_opts_rec_head _ _ _ _ _ _ E1) as [rest1 ->].
    unfold cache_store. rewrite G1.
    destruct (maxsize <=? List.length ((parent conf_dir, m) :: rest1))%nat eqn:Full.
    + apply Nat.leb_le in Full. unfold maxsize in Full. simpl in Full.
      destruct rest1 as [|e rest1]; [simpl in Full; lia |].
      exists (removelast (e :: rest1)). reflexivity.
    + eauto.
Qed.

End Recency.

Lemma X5_witness :
  (exists rest, [(dir_a_b, [("wrap", PyInt 2)]); (dir_a, [("wrap", PyInt 2)])]
                = (dir_a_b, [("wrap", PyInt 2)]) :: rest)
  /\ (exists rest, [(dir_a_b, [("wrap", PyInt 2)]); (dir_a, [("wrap", PyInt 2)])]
                   = (dir_a_b, [("wrap", PyInt 2)])
                     :: (parent dir_a_b, [("wrap", PyInt 2)]) :: rest).
Proof.
  destruct (@X5_walk_memoizes_the_chain sample_tomllib
              (one_conf dir_a "wrap = 2") dir_a_b []
              [(dir_a_b, [("wrap", PyInt 2)]); (dir_a, [("wrap", PyInt 2)])]
              [("wrap", PyInt 2)]) as [Hd Hup].
  - reflexivity.
  - split; [exact Hd | apply Hup; reflexivity].
Defined.

(* ================================================================== *)
(** * Further properties: what a call reads *)

Lemma ancestors_prefix (d a : Path) :
  In a (ancestors d) ->
  root a = root d /\ exists suffix, tail d = (tail a ++ suffix)%list.
Proof.
  unfold ancestors. remember (depth d) as n eqn:Hn.
  revert d Hn. induction n as [|n IH]; intros d Hn; simpl.
  - intros [<- | []]. split; [reflexivity |]. exists []. symmetry. apply app_nil_r.
  - intros [<- | Hin].
    + split; [reflexivity |]. exists []. symmetry. apply app_nil_r.
    + assert (Hp : n = depth (parent d)) by (rewrite depth_parent; lia).
      destruct (IH (parent d) Hp Hin) as [R [suffix T]].
      rewrite parent_root in R. split; [exact R |].
      unfold depth in Hn. unfold parent in T.
      destruct (tail d) as [|x t] eqn:Et; [discriminate |].
      cbn [tail] in T.
      exists (suffix ++ [last (x :: t) x])%list.
      rewrite app_assoc, <- T. apply app_removelast_last. discriminate.
Qed.

Lemma read_toml_opts_rec_frame `{TomlLib} (fs fs' : FileSystem) (fuel : nat) :
  forall (d : Path) (c : Cache),
    (forall a, In a (ancestors d) ->
               fs (truediv a CONF_NAME) = fs' (truediv a CONF_NAME)) ->
    read_toml_opts_rec fuel fs d c = read_toml_opts_rec fuel fs' d c.
Proof.
  induction fuel as [|fuel IH]; intros d c Hsame; [reflexivity |].
  rewrite !read_toml_opts_rec_S.
  destruct (cache_get d c); [reflexivity |].
  rewrite <- (Hsame d) by (rewrite ancestors_unfold; left; reflexivity).
  destruct (fs (truediv d CONF_NAME)); [reflexivity |].
  destruct (path_eqb d (parent d)) eqn:P; [reflexivity |].
  rewrite (IH (parent d) c); [reflexivity |].
  intros a Hin. apply Hsame. rewrite ancestors_unfold, P. right. exact Hin.
Qed.

(** X6. A call reads nothing but the files named [.mdformat.toml] in the
    directories whose components are a prefix of those of its argument:
    two file systems that agree on these files give the same result and
    the same cache, whatever else they hold. In particular, a relative
    directory is never looked up above the relative path without
    components. *)
Theorem X6_reads_only_the_ancestor_chain `{TomlLib}
    (fs fs' : FileSystem) (conf_dir : Path) (cache : Cache) :
  (forall a,
     root a = root conf_dir ->
     (exists suffix, tail conf_dir = (tail a ++ suffix)%list) ->
     fs (truediv a CONF_NAME) = fs' (truediv a CONF_NAME)) ->
  read_toml_opts fs conf_dir cache = read_toml_opts fs' conf_dir cache.
Proof.
  intros Hsame. unfold read_toml_opts. apply read_toml_opts_rec_frame.
  intros a Hin. apply ancestors_prefix in Hin. destruct Hin as [R S].
  apply Hsame; assumption.
Qed.

Lemma X6_witness :
  @read_toml_opts sample_tomllib (one_conf dir_a "wrap = 2") dir_a_b_c []
  = @read_toml_opts sample_tomllib
      (fun p => if path_eqb p (truediv dir_a CONF_NAME) then Some "wrap = 2"
                else if path_eqb p (truediv (mkPath "/" ["x"]) CONF_NAME)
                     then Some "color = 1" else None)
      dir_a_b_c [].
Proof.
  apply (@X6_reads_only_the_ancestor_chain sample_tomllib).
  intros [r t] R [suffix T]. simpl in R, T. subst r. unfold one_conf.
  destruct (path_eqb (truediv (mkPath "/" t) CONF_NAME) (truediv dir_a CONF_NAME));
    [reflexivity |].
  destruct t as [|x1 t1]; [reflexivity |].
  simpl in T. injection T as <- T. reflexivity.
Defined.

(* ================================================================== *)
(** * Further properties: errors *)

(** X7. A nearest configuration file that does not parse makes the call
    raise [InvalidConfError] with the text of the parser: the walk does
    not go on to a file further up, and nothing is stored in the cache. *)
Theorem X7_syntax_error_stops_the_walk `{TomlLib}
    (fs : FileSystem) (cache : Cache) (conf_dir a : Path)
    (content : bytes) (e : string) :
  cache_coherent fs cache ->
  nearest_conf_dir fs conf_dir = Some a ->
  fs (truediv a CONF_NAME) = Some content ->
  tomllib_load content = TOMLDecodeError e ->
  read_toml_opts fs conf_dir cache
  = Some (Raise (InvalidConfError [Lit "Invalid TOML syntax: "; StrExc e]), cache).
Proof.
  intros Hc N F L.
  destruct (read_toml_opts_resolved fs conf_dir cache Hc) as [c' [E _]].
  rewrite (resolved_nearest fs conf_dir a N) in E.
  rewrite (resolved_here fs a content F) in E.
  rewrite (load_conf_syntax_error _ _ _ L) in E.
  pose proof E as E'. unfold read_toml_opts in E'.
  apply read_toml_opts_rec_raise in E'. destruct E' as [-> _]. exact E.
Qed.

Lemma X7_witness :
  @read_toml_opts sample_tomllib (one_conf dir_a "wrap: 2") dir_a_b_c []
  = Some (Raise (InvalidConfError
                   [Lit "Invalid TOML syntax: ";
                    StrExc "Invalid statement (at line 1, column 1)"]), []).
Proof.
  apply (@X7_syntax_error_stops_the_walk sample_tomllib
           (one_conf dir_a "wrap: 2") [] dir_a_b_c dir_a "wrap: 2").
  - intros k v [].
  - reflexivity.
  - reflexivity.
  - reflexivity.
Defined.

(** X8. Value validation passes exactly when each of the five enforced
    keys is absent or has a value that satisfies its rule; nothing else in
    the mapping matters, and neither does the path of the file. *)
Theorem X8_value_validation_passes_iff (opts : Dict) (conf_path : Path) :
  _validate_values opts conf_path = Return tt <->
  (forall v, dict_get "wrap" opts = Some v -> wrap_rule v = true)
  /\ (forall v, dict_get "end_of_line" opts = Some v -> end_of_line_rule v = true)
  /\ (forall v, dict_get "number" opts = Some v -> number_rule v = true)
  /\ (forall v, dict_get "primary_bullet_list_marker" opts = Some v ->
                bullet_rule v = true)
  /\ (forall v, dict_get "secondary_bullet_list_marker" opts = Some v ->
                bullet_rule v = true).
Proof.
  rewrite validate_values_checks, !bind_unit_ok, !check_key_ok. reflexivity.
Qed.

Lemma X8_witness :
  _validate_values [("number", PyBool true); ("wrap", PyInt 2)] dir_a = Return tt.
Proof.
  apply (proj2 (X8_value_validation_passes_iff
                  [("number", PyBool true); ("wrap", PyInt 2)] dir_a)).
  repeat split; intros v E; vm_compute in E; try discriminate;
    injection E as <-; reflexivity.
Defined.

Lemma check_key_cases (key : string) (opts : Dict) (p : Path) :
  (key = "number" \/ forall v, dict_get key opts = Some v -> hashable v = true) ->
  (check_key key opts p = Return tt
   /\ forall w, dict_get key opts = Some w -> conforms key w = true)
  \/ (exists v, dict_get key opts = Some v /\ conforms key v = false
                /\ check_key key opts p = Raise (invalid_value key p)).
Proof.
  intros Hh. unfold check_key. destruct (dict_get key opts) as [v|].
  - rewrite check_value_hashable
      by (destruct Hh as [-> | Hh]; [right; reflexivity | left; apply Hh; reflexivity]).
    destruct (conforms key v) eqn:C.
    + left. split; [reflexivity |]. intros w [= <-]. exact C.
    + right. exists v. auto.
  - left. split; [reflexivity | discriminate].
Qed.

(** Closes the case where the check of one key has raised: the keys
    checked before it have passed. *)
Ltac first_failing :=
  split; [reflexivity |];
  split; [| auto];
  let k := fresh "k" in let w := fresh "w" in let Hin := fresh "Hin" in
  intros k w Hin; simpl in Hin;
  repeat (destruct Hin as [<- | Hin]; [auto |]); destruct Hin.

(** X9. When no enforced key has an array or a table for value, value
    validation either passes or raises [InvalidConfError] for one enforced
    key: the first one, in the order [wrap], [end_of_line], [number],
    [primary_bullet_list_marker], [secondary_bullet_list_marker], whose
    value does not satisfy its rule. The order of the keys in the file
    plays no part. *)
Theorem X9_value_error_names_first_failing_key (opts : Dict) (conf_path : Path) :
  (forall key v, In key enforced_keys -> key <> "number" ->
                 dict_get key opts = Some v -> hashable v = true) ->
  _validate_values opts conf_path = Return tt
  \/ exists before key after v,
       enforced_keys = (before ++ key :: after)%list
       /\ (forall k w, In k before -> dict_get k opts = Some w ->
                       conforms k w = true)
       /\ dict_get key opts = Some v /\ conforms key v = false
       /\ _validate_values opts conf_path = Raise (invalid_value key conf_path).
Proof.
  intros Hh. rewrite validate_values_checks.
  assert (Hk : forall key, In key enforced_keys ->
            key = "number" \/
            forall v, dict_get key opts = Some v -> hashable v = true).
  { intros key Hin. destruct (String.eqb key "number") eqn:E.
    - left. apply String.eqb_eq. exact E.
    - right. intros v G. apply (Hh key v Hin); [| exact G].
      apply String.eqb_neq. exact E. }
  destruct (check_key_cases "wrap" opts conf_path
              (Hk "wrap" ltac:(simpl; tauto)))
    as [[E1 C1] | (v & G & C & E)]; [rewrite E1; cbn [bind] |].
  2: { right. exists [], "wrap", (List.tl enforced_keys), v.
       rewrite E. first_failing. }
  destruct (check_key_cases "end_of_line" opts conf_path
              (Hk "end_of_line" ltac:(simpl; tauto)))
    as [[E2 C2] | (v & G & C & E)]; [rewrite E2; cbn [bind] |].
  2: { right. exists ["wrap"], "end_of_line", (skipn 2 enforced_keys), v.
       rewrite E. first_failing. }
  destruct (check_key_cases "number" opts conf_path
              (Hk "number" ltac:(simpl; tauto)))
    as [[E3 C3] | (v & G & C & E)]; [rewrite E3; cbn [bind] |].
  2: { right. exists ["wrap"; "end_of_line"], "number", (skipn 3 enforced_keys), v.
       rewrite E. first_failing. }
  destruct (check_key_cases "primary_bullet_list_marker" opts conf_path
              (Hk "primary_bullet_list_marker" ltac:(simpl; tauto)))
    as [[E4 C4] | (v & G & C & E)]; [rewrite E4; cbn [bind] |].
  2: { right.
       exists ["wrap"; "end_of_line"; "number"], "primary_bullet_list_marker",
              (skipn 4 enforced_keys), v.
       rewrite E. first_failing. }
  destruct (check_key_cases "secondary_bullet_list_marker" opts conf_path
              (Hk "secondary_bullet_list_marker" ltac:(simpl; tauto)))
    as [[E5 C5] | (v & G & C & E)]; [left; exact E5 |].
  right.
  exists ["wrap"; "end_of_line"; "number"; "primary_bullet_list_marker"],
         "secondary_bullet_list_marker", [], v.
  rewrite E. first_failing.
Qed.

Lemma X9_witness :
  _validate_values [("number", PyInt 1); ("end_of_line", PyStr "cr")] dir_a
  = Return tt
  \/ exists before key after v,
       enforced_keys = (before ++ key :: after)%list
       /\ (forall k w, In k before ->
              dict_get k [("number", PyInt 1); ("end_of_line", PyStr "cr")] = Some w ->
              conforms k w = true)
       /\ dict_get key [("number", PyInt 1); ("end_of_line", PyStr "cr")] = Some v
       /\ conforms key v = false
       /\ _validate_values [("number", PyInt 1); ("end_of_line", PyStr "cr")] dir_a
          = Raise (invalid_value key dir_a).
Proof.
  apply (X9_value_error_names_first_failing_key
           [("number", PyInt 1); ("end_of_line", PyStr "cr")] dir_a).
  intros key v _ _. simpl.
  destruct (String.eqb key "number"); [intros [= <-]; reflexivity |].
  destruct (String.eqb key "end_of_line"); [intros [= <-]; reflexivity |].
  discriminate.
Defined.

Lemma validate_keys_first_unrecognized (before after : Dict) (key : string)
    (v : PyValue) (p : Path) :
  only_recognized_keys before = true -> recognized key = false ->
  _validate_keys (before ++ (key, v) :: after)%list p = Raise (invalid_key key p).
Proof.
  intros B R. induction before as [|[k w] rest IH].
  - cbn [app]. rewrite validate_keys_cons, R. reflexivity.
  - rewrite only_recognized_keys_cons in B. apply andb_true_iff in B.
    destruct B as [Bk Brest]. cbn [app].
    rewrite validate_keys_cons, Bk. apply IH. exact Brest.
Qed.

(** X10. Keys are validated before values, in the order of the file: when
    the parsed mapping has an unrecognized key, the call for the file
    raises [InvalidConfError] for the first such key, whatever the values
    of the mapping are, those of the keys before it included. *)
Theorem X10_first_unrecognized_key_wins `{TomlLib}
    (content : bytes) (conf_path : Path) (before after : Dict)
    (key : string) (v : PyValue) :
  tomllib_load content = Loaded (before ++ (key, v) :: after)%list ->
  only_recognized_keys before = true ->
  recognized key = false ->
  load_conf content conf_path = Raise (invalid_key key conf_path).
Proof.
  intros L B R. rewrite (load_conf_loaded _ _ _ L).
  rewrite (validate_keys_first_unrecognized before after key v conf_path B R).
  reflexivity.
Qed.

Lemma X10_witness :
  @load_conf
    (const_tomllib
       (Loaded [("wrap", PyList []); ("color", PyInt 1); ("colour", PyInt 2)]))
    "" dir_a
  = Raise (invalid_key "color" dir_a).
Proof.
  apply (@X10_first_unrecognized_key_wins
           (const_tomllib
              (Loaded [("wrap", PyList []); ("color", PyInt 1); ("colour", PyInt 2)]))
           "" dir_a [("wrap", PyList [])] [("colour", PyInt 2)] "color" (PyInt 1)).
  - reflexivity.
  - reflexivity.
  - reflexivity.
Defined.






(** X12. The defaults are valid: a file whose mapping is made of entries
    of [DEFAULT_OPTS], any of them in any order, passes both validations
    and is returned as it is. *)
Theorem X12_default_values_are_accepted `{TomlLib}
    (content : bytes) (conf_path : Path) (opts : Dict) :
  tomllib_load content = Loaded opts ->
  (forall kv, In kv opts -> In kv DEFAULT_OPTS) ->
  load_conf content conf_path = Return opts.
Proof.
  intros L Hsub. apply load_conf_valid; [exact L | |].
  - unfold only_recognized_keys. apply forallb_forall. intros kv Hin.
    assert (D : forallb (fun kv => recognized (fst kv)) DEFAULT_OPTS = true)
      by reflexivity.
    rewrite forallb_forall in D. apply D. apply Hsub. exact Hin.
  - unfold schema_conformant. apply forallb_forall. intros kv Hin.
    assert (D : forallb (fun kv => conforms (fst kv) (snd kv)) DEFAULT_OPTS = true)
      by reflexivity.
    rewrite forallb_forall in D. apply D. apply Hsub. exact Hin.
Qed.

Lemma X12_witness :
  @load_conf
    (const_tomllib (Loaded [("number", PyBool false); ("wrap", PyStr "keep")]))
    "" dir_a
  = Return [("number", PyBool false); ("wrap", PyStr "keep")].
Proof.
  apply (@X12_default_values_are_accepted
           (const_tomllib (Loaded [("number", PyBool false); ("wrap", PyStr "keep")]))
           "" dir_a).
  - reflexivity.
  - intros kv [<- | [<- | []]]; simpl; tauto.
Defined.
